(** * fq: a schema-less query/filter engine -- shallow embedding and properties

    The development follows the Go package [fq]:
    - [type_utils.go]: [compareValues], [isEqual], [isUncomparable],
      [toNumber], [isNil];
    - [operators.go]: [Eq], [Gt], [Lt], [Gte], [Lte], [Or], [And], [Not];
    - the core file: [Filter], [FilterC], [eval], [evalMapQuery], [getField].

    Go values of type [interface{}] are embedded as the inductive [value];
    a panic is an explicit result ([Panic]); the 64-bit [int] is a [Z] with
    its wrap-around written out; [float64] is the IEEE-754 binary64 format of
    [SpecFloat]. *)

From Stdlib Require Import ZArith List String Ascii Bool Lia Permutation.
From Stdlib Require Import Floats.SpecFloat.
Import ListNotations.
Set Warnings "-register-all".
Open Scope string_scope.
Open Scope Z_scope.

(** ** Panics as results *)

(** A Go call either returns or panics with a value; the panic value is kept
    as the text that [%v] prints for it. *)
Inductive res (A : Type) : Type :=
| Ok (a : A)
| Panic (r : string).
Arguments Ok {A} a.
Arguments Panic {A} r.

Definition bind {A B : Type} (c : res A) (k : A -> res B) : res B :=
  match c with
  | Ok a => k a
  | Panic r => Panic r
  end.

Notation "'let*' x ':=' c 'in' k" := (bind c (fun x => k))
  (at level 10, x name, c at level 100, k at level 200).

(** ** The machine integer [int] *)

Module GoInt.

(** [int] is 64 bits wide on the platforms the package is built for. *)
Definition min_int : Z := - 2 ^ 63.
Definition max_int : Z := 2 ^ 63 - 1.

Definition in_range (n : Z) : Prop := min_int <= n <= max_int.

(** Two's complement wrap-around of a mathematical integer. *)
Definition wrap (n : Z) : Z := (n + 2 ^ 63) mod 2 ^ 64 - 2 ^ 63.

Definition add (a b : Z) : Z := wrap (a + b).

End GoInt.

(** ** Values *)

(** Signed and unsigned integer types. *)
Inductive ikind := KInt | KInt8 | KInt16 | KInt32 | KInt64.
Inductive ukind := KUint | KUint8 | KUint16 | KUint32 | KUint64 | KUintptr.

(** Key type of a map, as far as [reflect.Value.MapIndex] with a [string]
    key is concerned: a [string] key is assignable to key type [string] and
    to key type [interface{}], and to no other key type. *)
Inductive keytype := KeyString | KeyIface | KeyOther.

(** Element type of a pointer, as far as [reflect.Value.Elem] is concerned:
    a pointer to a variable of a concrete type [T] ([*T]), or a pointer to
    a variable of an interface type (as in [*interface{}]), whose [Elem()]
    has kind [Interface] whatever the variable holds. *)
Inductive elemtype := ElemConcrete | ElemIface.

(** A value of type [interface{}].

    - [VNil] is the nil interface.
    - [VInt k n] and [VUint k n] are integers of the given type.
    - [VFloat32 f] and [VFloat64 f] hold an IEEE-754 number, in the
      representation of [SpecFloat].
    - [VTime t] is a [time.Time], the instant [t] in nanoseconds.
    - [VSlice None] is a nil slice, [VMap kt None] a nil map, [VPtr None] a
      nil pointer; [VFunc true] and [VChan true] are nil function and
      channel values.
    - the elements of slices, arrays, maps and structs are stored boxed, as
      [Interface()] returns them; an element of static type [interface{}]
      may be [VNil].
    - [VPtr (Some (ElemConcrete, t))] points to a variable of the concrete
      type of [t], which holds [t] (never [VNil]);
      [VPtr (Some (ElemIface, x))] points to a variable of an interface
      type, which holds [x] (possibly [VNil]).
    - [VStruct fs] is a struct all fields of which are declared by name;
      a field carries its name and whether it is exported.
    - [VNamed name v] is a value of the defined type [name] whose underlying
      representation is [v] (as in [type Celsius float64]): [reflect.Kind]
      sees through it, a type switch on predeclared types does not.

    Complex numbers, [unsafe.Pointer] and structs with embedded fields
    (whose promoted fields [FieldByName] would find) are left out. *)
Inductive value : Type :=
| VNil
| VBool (b : bool)
| VInt (k : ikind) (n : Z)
| VUint (k : ukind) (n : Z)
| VFloat32 (f : spec_float)
| VFloat64 (f : spec_float)
| VString (s : string)
| VTime (t : Z)
| VSlice (xs : option (list value))
| VArray (xs : list value)
| VMap (kt : keytype) (m : option (list (value * value)))
| VStruct (fs : list (string * bool * value))
| VPtr (p : option (elemtype * value))
| VFunc (isnil : bool)
| VChan (isnil : bool)
| VNamed (name : string) (v : value).

(** The representation under the defined types. *)
Fixpoint underlying (v : value) : value :=
  match v with
  | VNamed _ v' => underlying v'
  | _ => v
  end.

(** ** The part of package [reflect] that the code uses *)

Module reflect.

Inductive Kind :=
| Invalid | Bool
| Int | Int8 | Int16 | Int32 | Int64
| Uint | Uint8 | Uint16 | Uint32 | Uint64 | Uintptr
| Float32 | Float64
| Array | Chan | Func | Interface | Map | Ptr | Slice | String | Struct.

Definition Kind_eqb (a b : Kind) : bool :=
  match a, b with
  | Invalid, Invalid | Bool, Bool
  | Int, Int | Int8, Int8 | Int16, Int16 | Int32, Int32 | Int64, Int64
  | Uint, Uint | Uint8, Uint8 | Uint16, Uint16 | Uint32, Uint32
  | Uint64, Uint64 | Uintptr, Uintptr
  | Float32, Float32 | Float64, Float64
  | Array, Array | Chan, Chan | Func, Func | Interface, Interface
  | Map, Map | Ptr, Ptr | Slice, Slice | String, String
  | Struct, Struct => true
  | _, _ => false
  end.

(** A [reflect.Value]: the zero Value ([None]), or a value together with
    the read-only flag that marks what was reached through an unexported
    struct field, and with whether the Value is the interface variable
    behind a [*interface{}], which has kind [Interface] and holds the
    value. *)
Record Value := mkValue {
  data : option value;
  flagRO : bool;
  isIface : bool
}.

Definition zero : Value := mkValue None false false.

(** [reflect.ValueOf(i)]: the zero Value for the nil interface. *)
Definition ValueOf (i : value) : Value :=
  match i with
  | VNil => zero
  | _ => mkValue (Some i) false false
  end.

(** The kind of a value is that of its underlying representation, which is
    never a [VNamed]. *)
Definition kind_of_value (v : value) : Kind :=
  match underlying v with
  | VNil => Interface
  | VBool _ => Bool
  | VInt KInt _ => Int
  | VInt KInt8 _ => Int8
  | VInt KInt16 _ => Int16
  | VInt KInt32 _ => Int32
  | VInt KInt64 _ => Int64
  | VUint KUint _ => Uint
  | VUint KUint8 _ => Uint8
  | VUint KUint16 _ => Uint16
  | VUint KUint32 _ => Uint32
  | VUint KUint64 _ => Uint64
  | VUint KUintptr _ => Uintptr
  | VFloat32 _ => Float32
  | VFloat64 _ => Float64
  | VString _ => String
  | VTime _ => Struct
  | VSlice _ => Slice
  | VArray _ => Array
  | VMap _ _ => Map
  | VStruct _ => Struct
  | VPtr _ => Ptr
  | VFunc _ => Func
  | VChan _ => Chan
  | VNamed _ _ => Invalid
  end.

(** [v.Kind()]; the interface variable behind a [*interface{}] and a Value
    that holds a nil [interface{}] element have kind [Interface]. *)
Definition Kind_ (v : Value) : Kind :=
  match data v with
  | None => Invalid
  | Some x => if isIface v then Interface else kind_of_value x
  end.

Definition IsValid (v : Value) : bool :=
  match data v with
  | None => false
  | Some _ => true
  end.

(** [v.IsNil()], called by the code on the kinds Ptr, Slice, Map,
    Interface, Chan and Func only. *)
Definition IsNil (v : Value) : bool :=
  match data v with
  | None => false
  | Some x =>
      if isIface v then match x with VNil => true | _ => false end
      else
        match underlying x with
        | VNil => true
        | VSlice None => true
        | VMap _ None => true
        | VPtr None => true
        | VFunc b => b
        | VChan b => b
        | _ => false
        end
  end.

(** [v.Elem()] on a pointer: the zero Value for a nil pointer, the variable
    pointed to otherwise, of kind [Interface] behind a [*interface{}]. On
    an interface variable: the value that it holds, the zero Value when it
    holds nil. *)
Definition Elem (v : Value) : Value :=
  match data v with
  | Some x =>
      if isIface v then
        match x with
        | VNil => zero
        | _ => mkValue (Some x) (flagRO v) false
        end
      else
        match underlying x with
        | VPtr (Some (ElemConcrete, t)) => mkValue (Some t) (flagRO v) false
        | VPtr (Some (ElemIface, t)) => mkValue (Some t) (flagRO v) true
        | _ => zero
        end
  | None => zero
  end.

(** The value of the panic of [MapIndex] when a [string] is not assignable
    to the key type. The runtime's text goes on with the name of the key
    type ([... to type int]), which a [VMap] does not keep. *)
Definition not_assignable : string :=
  "reflect.Value.MapIndex: value of type string is not assignable to type ".

Definition unexported : string :=
  "reflect.Value.Interface: cannot return value obtained from unexported field or method".

Definition is_key (name : string) (kv : value * value) : bool :=
  match fst kv with
  | VString s => String.eqb s name
  | _ => false
  end.

(** [v.MapIndex(reflect.ValueOf(name))] on a map: panics when a [string]
    is not assignable to the key type; the zero Value when the key is not
    in the map (always so for a nil map). *)
Definition MapIndex (v : Value) (name : string) : res Value :=
  match data v with
  | Some x =>
      if isIface v
      then Panic "reflect: call of reflect.Value.MapIndex on interface Value"
      else
        match underlying x with
        | VMap KeyOther _ => Panic not_assignable
        | VMap _ None => Ok zero
        | VMap _ (Some m) =>
            match find (is_key name) m with
            | Some (_, e) => Ok (mkValue (Some e) (flagRO v) false)
            | None => Ok zero
            end
        | _ =>
            Panic "reflect: call of reflect.Value.MapIndex on non-map Value"
        end
  | None => Panic "reflect: call of reflect.Value.MapIndex on zero Value"
  end.

Definition is_field (name : string) (f : string * bool * value) : bool :=
  String.eqb (fst (fst f)) name.

(** The fields of [time.Time], none of them exported. *)
Definition time_fields : list string := ["wall"; "ext"; "loc"].

(** [v.FieldByName(name)] on a Value of kind [Struct], where the code
    calls it, for a struct without embedded fields: the zero Value when
    there is no such field; a field that is not exported is returned
    read-only. The three fields of a [time.Time] are read-only, and what
    they hold is never seen. *)
Definition FieldByName (v : Value) (name : string) : Value :=
  match data v with
  | Some x =>
      if isIface v then zero
      else
        match underlying x with
        | VStruct fs =>
            match find (is_field name) fs with
            | Some (_, exported, e) =>
                mkValue (Some e) (flagRO v || negb exported) false
            | None => zero
            end
        | VTime t =>
            if existsb (String.eqb name) time_fields
            then mkValue (Some (VInt KInt64 t)) true false
            else zero
        | _ => zero
        end
  | None => zero
  end.

(** [v.Interface()]: panics on a read-only Value. *)
Definition Interface_ (v : Value) : res value :=
  match data v with
  | None => Panic "reflect: call of reflect.Value.Interface on zero Value"
  | Some x =>
      if flagRO v then Panic unexported else Ok x
  end.

(** The elements [v.Index(0).Interface()], ..., up to [v.Len()], of a slice
    or an array; a nil slice has length 0. *)
Definition Elems (v : Value) : list value :=
  match data v with
  | Some x =>
      match underlying x with
      | VSlice (Some xs) => xs
      | VArray xs => xs
      | _ => []
      end
  | None => []
  end.

End reflect.

(** ** [float64] *)

Module f64.

Definition prec : Z := 53.
Definition emax : Z := 1024.

(** A well-formed binary64 number. *)
Definition valid (f : spec_float) : bool := valid_binary prec emax f.

(** [float64(n)] for an integer [n]: rounding to nearest, ties to even. *)
Definition of_Z (n : Z) : spec_float := binary_normalize prec emax n 0 false.

(** [float64(f)] for a [float32] [f]. *)
Definition of_f32 (f : spec_float) : spec_float :=
  match f with
  | S754_finite s m e => binary_round prec emax s m e
  | _ => f
  end.

Definition ltb (a b : spec_float) : bool := SFltb a b.
Definition gtb (a b : spec_float) : bool := SFltb b a.
Definition eqb (a b : spec_float) : bool := SFeqb a b.

End f64.

(** ** type_utils.go *)

(** [toNumber] converts numeric types to [float64]; [None] is the result
    [(0, false)]. The type switch comes first, the switch on the kind
    second. *)
Definition toNumber (v : value) : option spec_float :=
  match v with
  | VNil => None
  | VInt KInt n => Some (f64.of_Z n)
  | VFloat64 f => Some f
  | VFloat32 f => Some (f64.of_f32 f)
  | VInt KInt64 n => Some (f64.of_Z n)
  | VInt KInt32 n => Some (f64.of_Z n)
  | VUint KUint32 n => Some (f64.of_Z n)
  | VUint KUint64 n => Some (f64.of_Z n)
  | _ =>
      let reflectV := reflect.ValueOf v in
      match reflect.Kind_ reflectV, underlying v with
      | (reflect.Int | reflect.Int8 | reflect.Int16 | reflect.Int32
        | reflect.Int64), VInt _ n => Some (f64.of_Z n)
      | (reflect.Uint | reflect.Uint8 | reflect.Uint16 | reflect.Uint32
        | reflect.Uint64), VUint _ n => Some (f64.of_Z n)
      | reflect.Float32, VFloat32 f => Some (f64.of_f32 f)
      | reflect.Float64, VFloat64 f => Some f
      | _, _ => None
      end
  end.

Definition isNilKind (k : reflect.Kind) : bool :=
  match k with
  | reflect.Ptr | reflect.Slice | reflect.Map | reflect.Interface
  | reflect.Chan | reflect.Func => true
  | _ => false
  end.

Definition isNil (v : value) : bool :=
  match v with
  | VNil => true
  | _ =>
      let val := reflect.ValueOf v in
      let kind := reflect.Kind_ val in
      isNilKind kind && reflect.IsNil val
  end.

(** [isUncomparable] checks if a type is not comparable with [==]. *)
Definition isUncomparable (k : reflect.Kind) : bool :=
  match k with
  | reflect.Slice | reflect.Map | reflect.Func => true
  | _ => false
  end.

(** The switch on the type of [a] at the head of [compareValues]: [Some r]
    when a case returns [r], [None] when control falls out of the switch. *)
Definition fastPath (a b : value) : option Z :=
  match a, b with
  | VInt KInt aVal, VInt KInt bVal =>
      Some (if aVal <? bVal then -1 else if aVal >? bVal then 1 else 0)
  | VFloat64 aVal, VFloat64 bVal =>
      Some (if f64.ltb aVal bVal then -1
            else if f64.gtb aVal bVal then 1 else 0)
  | VString aVal, VString bVal =>
      Some (if String.ltb aVal bVal then -1
            else if String.ltb bVal aVal then 1 else 0)
  | VTime aVal, VTime bVal =>
      Some (if aVal <? bVal then -1 else if bVal <? aVal then 1 else 0)
  | _, _ => None
  end.

(** [compareValues] compares two values. *)
Definition compareValues (a b : value) : Z :=
  match a, b with
  | VNil, VNil => 0
  | VNil, _ => -1
  | _, VNil => 1
  | _, _ =>
      match fastPath a b with
      | Some r => r
      | None =>
          match toNumber a, toNumber b with
          | Some aNum, Some bNum =>
              if f64.ltb aNum bNum then -1
              else if f64.gtb aNum bNum then 1 else 0
          | _, _ => -1
          end
      end
  end.

(** ** Queries *)

(** A [Query] is an [interface{}]; [eval] switches on its type:
    - [QPred p]: a [P] or a [func(interface{}) bool], a Go function that
      returns a boolean or panics;
    - [QMap m]: a [Q] or a [map[string]interface{}]; the list holds the
      entries in the order in which the [range] loop of [evalMapQuery]
      visits them, an order that Go leaves to the runtime, so that a
      statement about [QMap m] is made for every order when it is made for
      every list [m];
    - [QVal v]: any other value, the nil interface [QVal VNil] included. *)
Inductive query : Type :=
| QPred (p : value -> res bool)
| QMap (m : list (string * query))
| QVal (v : value).

(** The entries of a map query. *)
Definition entries : Type := list (string * query).

(** [query == nil] *)
Definition is_nil_query (q : query) : bool :=
  match q with
  | QVal VNil => true
  | _ => false
  end.

Definition len {A : Type} (l : list A) : Z := Z.of_nat (List.length l).

(** The slice expression [data[lo:hi]]. The bounds are checked against the
    length; Go checks [hi] against the capacity, and the one slice
    expression of the package has [hi <= len(data)]. The runtime's text
    goes on with the bounds at fault (as in [[:-1]]). *)
Definition slice {A : Type} (data : list A) (lo hi : Z) : res (list A) :=
  if (0 <=? lo) && (lo <=? hi) && (hi <=? len data)
  then Ok (firstn (Z.to_nat (hi - lo)) (skipn (Z.to_nat lo) data))
  else Panic "runtime error: slice bounds out of range".

(** [fmt.Errorf(prefix + "%v", r)] *)
Definition Errorf (prefix r : string) : string := String.append prefix r.

(** ** The field accessor *)

Definition getField (item : value) (fieldName : string) : res value :=
  match item with
  | VNil => Ok VNil
  | _ =>
      let itemVal := reflect.ValueOf item in
      let itemVal :=
        if reflect.Kind_eqb (reflect.Kind_ itemVal) reflect.Ptr
        then reflect.Elem itemVal else itemVal in
      match reflect.Kind_ itemVal with
      | reflect.Map =>
          let* valueVal := reflect.MapIndex itemVal fieldName in
          if negb (reflect.IsValid valueVal) then Ok VNil
          else reflect.Interface_ valueVal
      | reflect.Struct =>
          let field := reflect.FieldByName itemVal fieldName in
          if negb (reflect.IsValid field) then Ok VNil
          else reflect.Interface_ field
      | _ => Ok VNil
      end
  end.

(** ** Evaluation, operators and the two filters *)

Section Engine.

(** Two primitives of the host language are taken as they come: [==] on
    two non-nil interface values, which panics on values of one
    uncomparable type, and [reflect.DeepEqual]. *)
Variable iface_eq : value -> value -> res bool.
Variable DeepEqual : value -> value -> bool.

Definition is_VNil (v : value) : bool :=
  match v with
  | VNil => true
  | _ => false
  end.

(** [isEqual]: equality with safety for uncomparable types. When [a] or
    [b] is nil, [a == b] holds exactly when both are. *)
Definition isEqual (a b : value) : res bool :=
  if is_VNil a || is_VNil b then Ok (is_VNil a && is_VNil b)
  else
    match toNumber a, toNumber b with
    | Some aNum, Some bNum => Ok (f64.eqb aNum bNum)
    | _, _ =>
        let aVal := reflect.ValueOf a in
        let bVal := reflect.ValueOf b in
        if isUncomparable (reflect.Kind_ aVal)
           || isUncomparable (reflect.Kind_ bVal)
        then Ok (DeepEqual a b)
        else if reflect.Kind_eqb (reflect.Kind_ aVal) (reflect.Kind_ bVal)
        then iface_eq a b
        else Ok (DeepEqual a b)
    end.

(** [eval] checks if a value satisfies a query of any type; the inner
    loop is [evalMapQuery]. *)
Fixpoint eval (query : query) (value : value) {struct query} : res bool :=
  match query with
  | QPred q => q value
  | QMap q =>
      (fix loop (es : entries) : res bool :=
         match es with
         | [] => Ok true
         | (key, condition) :: rest =>
             let* value' :=
               (if String.eqb key "" then Ok value
                else getField value key) in
             let* ok := eval condition value' in
             if negb ok then Ok false else loop rest
         end) q
  | QVal VNil => Ok (isNil value)
  | QVal q => isEqual value q
  end.

(** [evalMapQuery] checks if an item matches a map-based query; each
    field in the map acts as a condition with implicit AND. *)
Fixpoint evalMapQuery (item : value) (query : list (string * query))
  : res bool :=
  match query with
  | [] => Ok true
  | (key, condition) :: rest =>
      let* value :=
        (if String.eqb key "" then Ok item else getField item key) in
      let* ok := eval condition value in
      if negb ok then Ok false else evalMapQuery item rest
  end.

(** *** operators.go *)

Definition Eq (val : value) : value -> res bool :=
  fun v => isEqual v val.

Definition Gt (threshold : value) : value -> res bool :=
  fun v => Ok (compareValues v threshold >? 0).

Definition Lt (threshold : value) : value -> res bool :=
  fun v => Ok (compareValues v threshold <? 0).

Definition Gte (threshold : value) : value -> res bool :=
  fun v => Ok (compareValues v threshold >=? 0).

Definition Lte (threshold : value) : value -> res bool :=
  fun v => Ok (compareValues v threshold <=? 0).

Fixpoint Or (vals : list query) : value -> res bool :=
  fun v =>
    match vals with
    | [] => Ok false
    | val :: rest =>
        let* ok := eval val v in
        if ok then Ok true else Or rest v
    end.

Fixpoint And (predicates : list query) : value -> res bool :=
  fun v =>
    match predicates with
    | [] => Ok true
    | p :: rest =>
        let* ok := eval p v in
        if negb ok then Ok false else And rest v
    end.

Definition Not (p : query) : value -> res bool :=
  fun v => let* ok := eval p v in Ok (negb ok).

(** *** Filter *)

(** The loop of [Filter] over the records still to scan, with the local
    [count] and the named result [result]. A panic of [eval] leaves the
    loop; the deferred function then sets [err] and the named result is
    returned as it stands. *)
Fixpoint Filter_loop (query : query) (skip limit : Z) (data : list value)
  (count : Z) (result : list value) : list value * option string :=
  match data with
  | [] => (result, None)
  | item :: rest =>
      match eval query item with
      | Panic r => (result, Some (Errorf "panic during filtering: " r))
      | Ok false => Filter_loop query skip limit rest count result
      | Ok true =>
          if count <? skip
          then Filter_loop query skip limit rest (GoInt.add count 1) result
          else
            let result := (result ++ [item])%list in
            if (limit >? 0) && (len result >=? limit)
            then (result, None)
            else Filter_loop query skip limit rest count result
      end
  end.

(** [Filter] filters data based on any query type. The second component
    is the error, [None] for a nil error. *)
Definition Filter (data : list value) (query : query) (skip limit : Z)
  : list value * option string :=
  if is_nil_query query then
    if (skip =? 0) && ((limit =? 0) || (limit >=? len data))
    then (data, None)
    else
      match slice data (Z.min skip (len data))
              (Z.min (GoInt.add skip limit) (len data)) with
      | Ok s => (s, None)
      | Panic r => ([], Some (Errorf "panic during filtering: " r))
      end
  else Filter_loop query skip limit data 0 [].

(** *** FilterC *)

(** What the goroutine of [FilterC] sends, in program order. *)
Inductive event : Type :=
| Out (item : value)
| Err (e : string).

(** The loop of the goroutine over the items received from [input] until
    it is closed, with the locals [matched] and [sent]. *)
Fixpoint FilterC_loop (query : query) (skip limit : Z) (input : list value)
  (matched sent : Z) : list event :=
  match input with
  | [] => []
  | item :: rest =>
      match eval query item with
      | Panic r =>
          Err (Errorf "panic during filter evaluation: " r)
            :: FilterC_loop query skip limit rest matched sent
      | Ok false => FilterC_loop query skip limit rest matched sent
      | Ok true =>
          let matched := GoInt.add matched 1 in
          if matched <=? skip
          then FilterC_loop query skip limit rest matched sent
          else if (limit >? 0) && (sent >=? limit) then []
          else Out item
                 :: FilterC_loop query skip limit rest matched
                      (GoInt.add sent 1)
      end
  end.

Definition outputs (tr : list event) : list value :=
  flat_map (fun e => match e with Out x => [x] | Err _ => [] end) tr.

Definition errors (tr : list event) : list string :=
  flat_map (fun e => match e with Out _ => [] | Err m => [m] end) tr.

(** [FilterC]: the items delivered on [output] and the errors delivered
    on [errCh], for the items that [input] delivers before it is
    closed. *)
Definition FilterC (input : list value) (query : query) (skip limit : Z)
  : list value * list string :=
  let tr := FilterC_loop query skip limit input 0 0 in
  (outputs tr, errors tr).

End Engine.

(** ** A reference instance of the host primitives *)

(** Structural equality of values, with [==] of [float64] on floats and
    with function values equal only when both are nil, as
    [reflect.DeepEqual] has it. It identifies two values of one shape, so it
    stands for [reflect.DeepEqual] where the shape of a value determines its
    type; the entries of two maps are compared in the order in which they
    are listed. Elements are stored boxed, so that a [[]int] and a
    [[]interface{}] with the same elements are identified, which
    [reflect.DeepEqual] tells apart. It serves to run the engine on
    examples; the properties below hold for every choice of the two
    primitives. *)
Fixpoint deepEqual (a b : value) {struct a} : bool :=
  let fix all2 (xs ys : list value) {struct xs} : bool :=
    match xs, ys with
    | [], [] => true
    | x :: xs', y :: ys' => deepEqual x y && all2 xs' ys'
    | _, _ => false
    end in
  let fix entries2 (xs ys : list (value * value)) {struct xs} : bool :=
    match xs, ys with
    | [], [] => true
    | (k, x) :: xs', (k', y) :: ys' =>
        deepEqual k k' && deepEqual x y && entries2 xs' ys'
    | _, _ => false
    end in
  let fix fields2 (xs ys : list (string * bool * value)) {struct xs} : bool :=
    match xs, ys with
    | [], [] => true
    | (n, e, x) :: xs', (n', e', y) :: ys' =>
        String.eqb n n' && Bool.eqb e e' && deepEqual x y && fields2 xs' ys'
    | _, _ => false
    end in
  match a, b with
  | VNil, VNil => true
  | VBool x, VBool y => Bool.eqb x y
  | VInt k x, VInt k' y =>
      reflect.Kind_eqb (reflect.kind_of_value a) (reflect.kind_of_value b)
      && (x =? y)
  | VUint k x, VUint k' y =>
      reflect.Kind_eqb (reflect.kind_of_value a) (reflect.kind_of_value b)
      && (x =? y)
  | VFloat32 x, VFloat32 y => f64.eqb x y
  | VFloat64 x, VFloat64 y => f64.eqb x y
  | VString x, VString y => String.eqb x y
  | VTime x, VTime y => x =? y
  | VSlice None, VSlice None => true
  | VSlice (Some xs), VSlice (Some ys) => all2 xs ys
  | VArray xs, VArray ys => all2 xs ys
  | VMap _ None, VMap _ None => true
  | VMap _ (Some xs), VMap _ (Some ys) => entries2 xs ys
  | VStruct xs, VStruct ys => fields2 xs ys
  | VPtr None, VPtr None => true
  | VPtr (Some (ElemConcrete, x)), VPtr (Some (ElemConcrete, y)) =>
      deepEqual x y
  | VPtr (Some (ElemIface, x)), VPtr (Some (ElemIface, y)) => deepEqual x y
  | VFunc x, VFunc y => x && y
  | VChan x, VChan y => x && y
  | VNamed n x, VNamed n' y => String.eqb n n' && deepEqual x y
  | _, _ => false
  end.

(** Whether [==] is defined on a value: not on slices, maps and functions,
    nor on a struct or an array that holds one. *)
Fixpoint comparable (a : value) : bool :=
  match a with
  | VSlice _ | VMap _ _ | VFunc _ => false
  | VArray xs => forallb comparable xs
  | VStruct fs => forallb (fun f => comparable (snd f)) fs
  | VNamed _ x => comparable x
  | _ => true
  end.

(** [==] on two interface values, on the same footing: values are compared
    by shape, a [time.Time] by its instant and a pointer by what it points
    to, where Go compares the fields of the struct and the addresses; the
    comparison panics when the operands are of one kind and one of them is
    uncomparable, where Go panics when they are of one type. *)
Definition ifaceEq (a b : value) : res bool :=
  if comparable a && comparable b then Ok (deepEqual a b)
  else if reflect.Kind_eqb (reflect.kind_of_value a) (reflect.kind_of_value b)
  then Panic "runtime error: comparing uncomparable type"
  else Ok false.

(** ** Notions used in the statements *)

(** A value is nullish when it is the nil interface or a nil pointer,
    channel, slice, map or function. *)
Definition nullish (v : value) : bool :=
  match underlying v with
  | VNil | VPtr None | VChan true | VSlice None | VMap _ None
  | VFunc true => true
  | _ => false
  end.

(** The value that a map query tests for the key [key]: the whole item for
    the empty key, the field otherwise. *)
Definition fieldValue (item : value) (key : string) : res value :=
  if String.eqb key "" then Ok item else getField item key.

(** The record that the accessor looks into: the item, or what the item
    points to when the item is a pointer to a variable of a concrete type;
    [None] for a nil pointer and for a pointer to an interface variable,
    behind which the accessor does not look. *)
Definition target (item : value) : option value :=
  match underlying item with
  | VPtr (Some (ElemConcrete, r)) => Some r
  | VPtr _ => None
  | _ => Some item
  end.

(** The field [name] of a record, with whether it can be read (a map entry
    always, a struct field when it is exported); [None] when the record has
    no such field or is no record at all. *)
Definition fieldOf (r : value) (name : string) : option (bool * value) :=
  match underlying r with
  | VMap _ (Some m) =>
      match find (reflect.is_key name) m with
      | Some (_, e) => Some (true, e)
      | None => None
      end
  | VStruct fs =>
      match find (reflect.is_field name) fs with
      | Some (_, exported, e) => Some (exported, e)
      | None => None
      end
  | VTime t =>
      if existsb (String.eqb name) reflect.time_fields
      then Some (false, VInt KInt64 t) else None
  | _ => None
  end.

(** A map whose key type takes no [string]. *)
Definition otherKeyed (r : value) : bool :=
  match underlying r with
  | VMap KeyOther _ => true
  | _ => false
  end.

(** Reading the field [name] of the record [r], in the words of the
    accessor's contract, with the two faults of [reflect] added: no value
    (nil) when there is no such field, the value of the field otherwise. *)
Definition readField (r : value) (name : string) : res value :=
  if otherKeyed r then Panic reflect.not_assignable
  else
    match fieldOf r name with
    | None => Ok VNil
    | Some (true, v) => Ok v
    | Some (false, _) => Panic reflect.unexported
    end.

(** The shortest prefix of [l] that holds [n] elements on which [p] is
    true, and the whole of [l] when there are fewer. *)
Fixpoint upto {A : Type} (p : A -> bool) (n : nat) (l : list A) : list A :=
  match l with
  | [] => []
  | x :: l' =>
      match n with
      | O => []
      | S n' => x :: upto p (if p x then n' else n) l'
      end
  end.

Section Notions.

Variable iface_eq : value -> value -> res bool.
Variable DeepEqual : value -> value -> bool.

(** What one entry of a map query yields on an item: the sub-query
    evaluated on the value of the field. *)
Definition entryResult (item : value) (kc : string * query) : res bool :=
  let* fv := fieldValue item (fst kc) in
  eval iface_eq DeepEqual (snd kc) fv.

(** The record matches: [eval] returns true. *)
Definition matchb (q : query) (x : value) : bool :=
  match eval iface_eq DeepEqual q x with
  | Ok true => true
  | _ => false
  end.

(** The evaluation of the record panics. *)
Definition faultb (q : query) (x : value) : bool :=
  match eval iface_eq DeepEqual q x with
  | Panic _ => true
  | Ok _ => false
  end.

(** The errors that the streaming filter reports for one item. *)
Definition faultOf (q : query) (x : value) : list string :=
  match eval iface_eq DeepEqual q x with
  | Panic r => [Errorf "panic during filter evaluation: " r]
  | Ok _ => []
  end.

(** The items that the streaming filter receives before it returns: all of
    them without a limit; with a limit, the items up to the match that
    comes once [limit] matches were sent, which is match number
    [skip + limit + 1]. *)
Definition received (q : query) (skip limit : Z) (input : list value)
  : list value :=
  if limit >? 0
  then upto (matchb q) (Z.to_nat skip + Z.to_nat limit + 1) input
  else input.

End Notions.

(** Pagination of a list of matches: the first [skip] are dropped, and at
    most [limit] of the others are kept when [limit] is positive. *)
Definition paginate {A : Type} (skip limit : Z) (l : list A) : list A :=
  let l' := skipn (Z.to_nat skip) l in
  if limit >? 0 then firstn (Z.to_nat limit) l' else l'.

(** [subseq s l]: [s] is [l] with some elements left out, the order kept. *)
Inductive subseq {A : Type} : list A -> list A -> Prop :=
| subseq_nil : subseq [] []
| subseq_keep x s l : subseq s l -> subseq (x :: s) (x :: l)
| subseq_drop x s l : subseq s l -> subseq s (x :: l).

(** *** Numbers *)

(** The value is of one of the kinds that [toNumber] widens: the signed
    and unsigned integers of the widths 8 to 64 and of the native width, and
    the two floating-point kinds; [uintptr] is not among them. *)
Definition normalizes (v : value) : bool :=
  match underlying v with
  | VInt _ _ => true
  | VUint KUintptr _ => false
  | VUint _ _ => true
  | VFloat32 _ | VFloat64 _ => true
  | _ => false
  end.

(** The value is of an integer or floating-point kind. *)
Definition integerOrFloat (v : value) : bool :=
  match underlying v with
  | VInt _ _ | VUint _ _ | VFloat32 _ | VFloat64 _ => true
  | _ => false
  end.

(** The number [m * 2 ^ e] that a value of such a kind denotes, as the pair
    [(m, e)]; infinities and NaN denote no number. *)
Definition number (v : value) : option (Z * Z) :=
  match underlying v with
  | VInt _ n | VUint _ n => Some (n, 0)
  | VFloat32 f | VFloat64 f =>
      match f with
      | S754_zero _ => Some (0, 0)
      | S754_finite s m e => Some (cond_Zopp s (Zpos m), e)
      | _ => None
      end
  | _ => None
  end.

(** [m1 * 2 ^ e1 = m2 * 2 ^ e2], stated over the integers. *)
Definition sameNumber (x y : Z * Z) : Prop :=
  let e := Z.min (snd x) (snd y) in
  fst x * 2 ^ (snd x - e) = fst y * 2 ^ (snd y - e).

(** A [float64] holds a number in its canonical binary64 representation. *)
Definition wellFormed (v : value) : Prop :=
  match underlying v with
  | VFloat64 f => f64.valid f = true
  | _ => True
  end.

(** The [float64] values [3.0]. *)
Definition three : spec_float := S754_finite false 6755399441055744 (-51).

(** *** The two stages of [binary_round] *)

Section RoundingStages.

Variables prec emax : Z.

(** The first stage of the rounding of [m * 2 ^ e] to a format: the
    mantissa aligned to the exponent of the format and truncated. *)
Definition truncated (m : positive) (e : Z) : shr_record * Z :=
  let '(mz, ez) :=
    shl_align m e (fexp prec emax (Zpos (digits2_pos m) + e)) in
  shr_fexp prec emax (Zpos mz) ez loc_Exact.

(** The second stage: rounding to nearest, ties to even, and overflow. *)
Definition finish (sx : bool) (t : shr_record * Z) : spec_float :=
  let '(mrs', e') := t in
  let '(mrs'', e'') :=
    shr_fexp prec emax
      (round_nearest_even (shr_m mrs') (loc_of_shr_record mrs')) e'
      loc_Exact in
  match shr_m mrs'' with
  | Z0 => S754_zero sx
  | Zpos m =>
      if e'' <=? emax - prec then S754_finite sx m e'' else S754_infinity sx
  | Zneg _ => S754_nan
  end.

End RoundingStages.

(** ** More of the package *)

(** *** The part of package [strings] that the code uses *)

Module strings.

(** [strings.HasPrefix(s, prefix)] *)
Fixpoint HasPrefix (s prefix : string) : bool :=
  match prefix with
  | EmptyString => true
  | String c prefix' =>
      match s with
      | EmptyString => false
      | String d s' => Ascii.eqb d c && HasPrefix s' prefix'
      end
  end.

(** [strings.Contains(s, substr)]: [substr] occurs at some position of
    [s]. *)
Fixpoint Contains (s substr : string) : bool :=
  HasPrefix s substr
  || match s with
     | EmptyString => false
     | String _ s' => Contains s' substr
     end.

(** [strings.Cut(s, sep)] for a separator of one byte: the text before and
    after its first occurrence. *)
Fixpoint Cut (s : string) (sep : ascii) : option (string * string) :=
  match s with
  | EmptyString => None
  | String c s' =>
      if Ascii.eqb c sep then Some (EmptyString, s')
      else
        match Cut s' sep with
        | Some (before, after) => Some (String c before, after)
        | None => None
        end
  end.

(** [strings.SplitN(s, sep, n)] for a separator of one byte and [n >= 0]:
    at most [n] substrings, the last one the unsplit remainder. *)
Fixpoint SplitN (s : string) (sep : ascii) (n : nat) : list string :=
  match n with
  | O => []
  | S O => [s]
  | S n' =>
      match Cut s sep with
      | Some (before, after) => before :: SplitN after sep n'
      | None => [s]
      end
  end.

End strings.

(** *** operators.go, continued *)

Module fq.

Section DeepEqual.

Variable DeepEqual : value -> value -> bool.

(** [In] checks if value matches any provided values. *)
Fixpoint In (vals : list value) : value -> res bool :=
  fun v =>
    match vals with
    | [] => Ok false
    | val :: rest => if DeepEqual v val then Ok true else In rest v
    end.

(** The inner loop of [ContainsAll] and its flag [found]. *)
Fixpoint found (elems : list value) (item : value) : bool :=
  match elems with
  | [] => false
  | e :: rest => if DeepEqual e item then true else found rest item
  end.

(** [ContainsAll] checks if an array contains all specified items. *)
Definition ContainsAll (items : list value) : value -> res bool :=
  fun v =>
    let arr := reflect.ValueOf v in
    if negb (reflect.Kind_eqb (reflect.Kind_ arr) reflect.Slice)
       && negb (reflect.Kind_eqb (reflect.Kind_ arr) reflect.Array)
    then Ok false
    else
      (fix loop (items : list value) : res bool :=
         match items with
         | [] => Ok true
         | item :: rest =>
             if negb (found (reflect.Elems arr) item) then Ok false
             else loop rest
         end) items.

End DeepEqual.

(** [Contains] checks if a string contains substring. *)
Definition Contains (substr : string) : value -> res bool :=
  fun v =>
    match v with
    | VString s => Ok (strings.Contains s substr)
    | _ => Ok false
    end.

End fq.

(** *** The command: cmd/fq/main.go *)

Module cmd.

(** What [parseFilters] returns: a query with a nil error, or a nil query
    with an error. *)
Inductive parsed : Type :=
| Parsed (q : query)
| Failed (err : string).

(** [query[field] = predicate] on the map under construction: the entry of
    the field is replaced when there is one, and added otherwise. The list
    stands for the map in one of the orders in which it can be visited. *)
Fixpoint assign (m : entries) (field : string) (q : query) : entries :=
  match m with
  | [] => [(field, q)]
  | (k, q') :: rest =>
      if String.eqb k field then (k, q) :: rest
      else (k, q') :: assign rest field q
  end.

Section ParseFilters.

(** [createPredicate] builds the predicate of an operator by reflection on
    the functions of the package; it is taken as it comes, the predicate on
    the left, the error on the right. *)
Variable createPredicate : string -> string -> (value -> res bool) + string.

(** The loop of [parseFilters] over the filters still to parse, with the
    map [query]. *)
Fixpoint parseFilters_loop (filters : list string) (query : entries)
  : parsed :=
  match filters with
  | [] => Parsed (QMap query)
  | filter :: rest =>
      match strings.SplitN filter ":"%char 3 with
      | [field; operator; value] =>
          match createPredicate operator value with
          | inr err => Failed err
          | inl predicate =>
              parseFilters_loop rest (assign query field (QPred predicate))
          end
      | _ => Failed (Errorf "invalid filter format: " filter)
      end
  end.

Definition parseFilters (filters : list string) : parsed :=
  match filters with
  | [] => Parsed (QVal VNil)
  | _ => parseFilters_loop filters []
  end.

End ParseFilters.

End cmd.

(** *** Further notions used in the statements *)

(** The integer that a value of an integer kind other than [uintptr]
    holds. *)
Definition intValue (v : value) : option Z :=
  match underlying v with
  | VInt _ n => Some n
  | VUint KUintptr _ => None
  | VUint _ n => Some n
  | _ => None
  end.

(** The two values can be ordered: one is nil, or both are of one of the
    types of the fast path, or both are numbers. *)
Definition orderable (a b : value) : bool :=
  match a, b with
  | VNil, _ | _, VNil => true
  | _, _ =>
      match fastPath a b with
      | Some _ => true
      | None =>
          match toNumber a, toNumber b with
          | Some _, Some _ => true
          | _, _ => false
          end
      end
  end.

(** The sign of an integer as [compareValues] reports an order. *)
Definition order_of (c : comparison) : Z :=
  match c with
  | Datatypes.Lt => -1
  | Datatypes.Eq => 0
  | Datatypes.Gt => 1
  end.

(** The field and the operator text of a well-formed filter
    [field:operator:value]. *)
Definition filterParts (filter : string) : option (string * string * string) :=
  match strings.Cut filter ":"%char with
  | Some (field, rest) =>
      match strings.Cut rest ":"%char with
      | Some (operator, value) => Some (field, operator, value)
      | None => None
      end
  | None => None
  end.

(** The elements of a slice or an array; a nil slice has none. *)
Definition collection (v : value) : option (list value) :=
  match underlying v with
  | VSlice (Some xs) => Some xs
  | VSlice None => Some []
  | VArray xs => Some xs
  | _ => None
  end.

(** The predicate of the last of the parsed filters that names the
    field. *)
Fixpoint lastFor (field : string)
  (fps : list (string * (value -> res bool))) : option (value -> res bool) :=
  match fps with
  | [] => None
  | (f, p) :: rest =>
      match lastFor field rest with
      | Some p' => Some p'
      | None => if String.eqb f field then Some p else None
      end
  end.

(** Both values are of the predeclared type [int], the one pair of numbers
    that [compareValues] orders without converting them. *)
Definition intPair (a b : value) : bool :=
  match a, b with
  | VInt KInt _, VInt KInt _ => true
  | _, _ => false
  end.

(** A builder of predicates to run [parseFilters] on examples: it knows
    the operator [gt] and compares with the text of the value. *)
Definition sampleBuilder (operator text : string)
  : (value -> res bool) + string :=
  if String.eqb operator "gt" then inl (Gt (VString text))
  else inr (Errorf "unknown operator: " operator).

(** The entry of a field in the entries of a map query. *)
Definition entryOf (m : entries) (field : string) : option query :=
  match find (fun kc => String.eqb (fst kc) field) m with
  | Some (_, q) => Some q
  | None => None
  end.

(** A predicate that panics on the string ["boom"] and holds of every other
    value. *)
Definition panicOnBoom (v : value) : res bool :=
  match v with
  | VString "boom" => Panic "boom"
  | _ => Ok true
  end.

(** * Properties *)

(** Case analysis on what the goal matches on. *)
Ltac break_match :=
  repeat match goal with
         | |- context [match ?x with _ => _ end] => destruct x; simpl
         end.

Lemma GoInt_wrap_in_range (n : Z) : GoInt.in_range n -> GoInt.wrap n = n.
Proof.
  unfold GoInt.in_range, GoInt.min_int, GoInt.max_int, GoInt.wrap. intros H.
  rewrite Z.mod_small; lia.
Qed.

Lemma GoInt_add_small (a b : Z) :
  GoInt.in_range (a + b) -> GoInt.add a b = a + b.
Proof. apply GoInt_wrap_in_range. Qed.

(** ** Ordering *)

(** C3. For non-nil [a] and [b] on which no case of the type switch of
    [compareValues] returns and of which at least one is not a number,
    [compareValues a b] is [-1] (less); hence [Lt(b)(a)] is true and
    [Gt(b)(a)] is false. *)
Theorem compareValues_incomparable_less (a b : value) :
  a <> VNil -> b <> VNil ->
  fastPath a b = None ->
  toNumber a = None \/ toNumber b = None ->
  compareValues a b = -1 /\ Lt b a = Ok true /\ Gt b a = Ok false.
Proof.
  intros Ha Hb Hfast Hnum.
  assert (Hc : compareValues a b = -1).
  { unfold compareValues. rewrite Hfast.
    destruct Hnum as [Hn | Hn]; rewrite Hn.
    - destruct a; try congruence; destruct b; congruence.
    - destruct (toNumber a); destruct a; try congruence;
        destruct b; congruence. }
  unfold Lt, Gt. rewrite Hc. auto.
Qed.

Lemma compareValues_incomparable_less_witness :
  compareValues (VString "abc") (VInt KInt 7) = -1
  /\ Lt (VInt KInt 7) (VString "abc") = Ok true
  /\ Gt (VInt KInt 7) (VString "abc") = Ok false.
Proof.
  apply compareValues_incomparable_less.
  - discriminate.
  - discriminate.
  - reflexivity.
  - left. reflexivity.
Defined.

(** ** Evaluation *)

Section EvalFacts.

Variable iface_eq : value -> value -> res bool.
Variable DeepEqual : value -> value -> bool.

Local Abbreviation eval := (eval iface_eq DeepEqual).
Local Abbreviation evalMapQuery := (evalMapQuery iface_eq DeepEqual).
Local Abbreviation entryResult := (entryResult iface_eq DeepEqual).
Local Abbreviation And := (And iface_eq DeepEqual).
Local Abbreviation Or := (Or iface_eq DeepEqual).

Lemma eval_QMap_cons (k : string) (c : query) (rest : list (string * query))
  (v : value) :
  eval (QMap ((k, c) :: rest)) v =
  match entryResult v (k, c) with
  | Ok true => eval (QMap rest) v
  | Ok false => Ok false
  | Panic r => Panic r
  end.
Proof.
  unfold entryResult, fieldValue. simpl.
  destruct (String.eqb k ""); simpl.
  - destruct (eval c v) as [[|]|]; reflexivity.
  - destruct (getField v k) as [fv|]; simpl; [|reflexivity].
    destruct (eval c fv) as [[|]|]; reflexivity.
Qed.

Lemma eval_QMap_evalMapQuery (m : list (string * query)) (v : value) :
  eval (QMap m) v = evalMapQuery v m.
Proof.
  induction m as [|[k c] rest IH]; [reflexivity|].
  rewrite eval_QMap_cons. simpl.
  unfold entryResult, fieldValue. simpl.
  destruct (String.eqb k ""); simpl.
  - destruct (eval c v) as [[|]|]; simpl; auto.
  - destruct (getField v k) as [fv|]; simpl; [|reflexivity].
    destruct (eval c fv) as [[|]|]; simpl; auto.
Qed.

Lemma eval_QMap_true (m : list (string * query)) (v : value) :
  eval (QMap m) v = Ok true <->
  Forall (fun kc => entryResult v kc = Ok true) m.
Proof.
  induction m as [|[k c] rest IH].
  - split; [constructor | reflexivity].
  - rewrite eval_QMap_cons. split.
    + intros H. destruct (entryResult v (k, c)) as [[|]|] eqn:E;
        try discriminate.
      constructor; [exact E | apply IH, H].
    + intros H. inversion H as [|? ? H1 H2]; subst.
      rewrite H1. apply IH, H2.
Qed.

Lemma eval_QMap_first (m : list (string * query)) (v : value)
  (out : res bool) :
  out <> Ok true ->
  (eval (QMap m) v = out <->
   exists pre kc post,
     m = (pre ++ kc :: post)%list
     /\ Forall (fun kc' => entryResult v kc' = Ok true) pre
     /\ entryResult v kc = out).
Proof.
  intros Hout. induction m as [|[k c] rest IH].
  - split.
    + intros H. simpl in H. congruence.
    + intros (pre & kc & post & Hm & _). destruct pre; discriminate.
  - rewrite eval_QMap_cons. split.
    + intros H. destruct (entryResult v (k, c)) as [[|]|] eqn:E.
      * apply IH in H. destruct H as (pre & kc & post & Hm & Hpre & Hkc).
        exists ((k, c) :: pre), kc, post. subst rest.
        repeat split; auto.
      * exists [], (k, c), rest. repeat split; auto. congruence.
      * exists [], (k, c), rest. repeat split; auto. congruence.
    + intros (pre & kc & post & Hm & Hpre & Hkc).
      destruct pre as [|kc0 pre]; simpl in Hm;
        injection Hm as Hhd Htl.
      * subst kc. rewrite Hkc. destruct out as [[|]|]; congruence.
      * subst kc0. inversion Hpre as [|? ? H1 H2]; subst.
        rewrite H1. apply IH. exists pre, kc, post. auto.
Qed.

(** When no entry panics, the result is the conjunction of the entries. *)
Lemma eval_QMap_forallb (m : list (string * query)) (v : value) :
  Forall (fun kc => exists b, entryResult v kc = Ok b) m ->
  eval (QMap m) v =
  Ok (forallb (fun kc => match entryResult v kc with
                         | Ok true => true
                         | _ => false
                         end) m).
Proof.
  induction 1 as [|[k c] rest [b Hb] Hrest IH]; [reflexivity|].
  rewrite eval_QMap_cons. simpl forallb. rewrite Hb.
  destruct b; [exact IH | reflexivity].
Qed.

(** X7. The order in which the runtime visits the entries of the map has
    no bearing on the result, as long as no entry panics. *)
Lemma eval_QMap_order (m m' : list (string * query)) (v : value) :
  Permutation m m' ->
  Forall (fun kc => exists b, entryResult v kc = Ok b) m ->
  eval (QMap m) v = eval (QMap m') v.
Proof.
  intros Hperm Hm.
  rewrite (eval_QMap_forallb m v Hm).
  rewrite (eval_QMap_forallb m' v (Permutation_Forall Hperm Hm)).
  f_equal. clear Hm.
  induction Hperm as [|x l l' _ IH|x y l|l l' l'' _ IH1 _ IH2]; simpl.
  - reflexivity.
  - rewrite IH. reflexivity.
  - destruct (entryResult v x) as [[|]|], (entryResult v y) as [[|]|];
      reflexivity.
  - congruence.
Qed.

(** C7. [eval] on a map query runs [evalMapQuery]: every entry is tested
    on the value of its field (the item itself for the empty key, the
    field accessor otherwise); the result is true exactly when every
    entry yields true, and false exactly when some entry yields false
    after all entries before it yielded true, whatever follows it; the
    empty map matches every value. *)
Theorem eval_map_query_conjunction (m : list (string * query)) (v : value) :
  eval (QMap m) v = evalMapQuery v m
  /\ (forall k c,
        entryResult v (k, c) =
        bind (if String.eqb k "" then Ok v else getField v k)
             (fun fv => eval c fv))
  /\ (eval (QMap m) v = Ok true <->
      Forall (fun kc => entryResult v kc = Ok true) m)
  /\ (eval (QMap m) v = Ok false <->
      exists pre kc post,
        m = (pre ++ kc :: post)%list
        /\ Forall (fun kc' => entryResult v kc' = Ok true) pre
        /\ entryResult v kc = Ok false)
  /\ eval (QMap []) v = Ok true.
Proof.
  split; [apply eval_QMap_evalMapQuery|].
  split; [reflexivity|].
  split; [apply eval_QMap_true|].
  split; [apply eval_QMap_first; discriminate|].
  reflexivity.
Qed.

(** C9. The nil query evaluates to [isNil] of the value, and [isNil]
    holds exactly of the nil interface (null, and the result of the
    accessor for an absent field) and of nil pointers, channels, slices,
    maps and functions. *)
Theorem eval_nil_is_nullish (v : value) :
  eval (QVal VNil) v = Ok (isNil v)
  /\ isNil v = nullish v
  /\ isNil VNil = true.
Proof.
  split; [reflexivity|]. split; [|reflexivity].
  unfold isNil, nullish, reflect.ValueOf, reflect.Kind_, reflect.IsNil,
    reflect.kind_of_value.
  destruct v; simpl; try reflexivity; break_match; reflexivity.
Qed.

(** C10. The empty conjunction is true and the empty disjunction is false
    on every value, as predicates and as queries; adding them to a
    conjunction or a disjunction changes nothing. *)
Theorem And_Or_empty (v : value) :
  And [] v = Ok true
  /\ Or [] v = Ok false
  /\ eval (QPred (And [])) v = Ok true
  /\ eval (QPred (Or [])) v = Ok false
  /\ (forall qs, And (QPred (And []) :: qs) v = And qs v)
  /\ (forall qs, Or (QPred (Or []) :: qs) v = Or qs v).
Proof. repeat split. Qed.

End EvalFacts.

(** ** The field accessor *)

(** [getField] reads the field in the record that [target] gives. *)
Lemma getField_readField (item : value) (name : string) :
  getField item name =
  match target item with
  | None => Ok VNil
  | Some r => readField r name
  end.
Proof.
  assert (Hrec : forall r,
    match reflect.Kind_ (reflect.mkValue (Some r) false false) with
    | reflect.Map =>
        let* valueVal :=
          reflect.MapIndex (reflect.mkValue (Some r) false false) name in
        if negb (reflect.IsValid valueVal) then Ok VNil
        else reflect.Interface_ valueVal
    | reflect.Struct =>
        let field :=
          reflect.FieldByName (reflect.mkValue (Some r) false false) name in
        if negb (reflect.IsValid field) then Ok VNil
        else reflect.Interface_ field
    | _ => Ok VNil
    end = readField r name).
  { intros r. unfold readField, otherKeyed, fieldOf, reflect.Kind_,
      reflect.kind_of_value, reflect.MapIndex, reflect.FieldByName,
      reflect.IsValid, reflect.Interface_. cbn -[existsb find].
    destruct (underlying r) as
      [ | | k n | k n | | | | t | xs | | kt m | fs | p | | | ];
      cbn -[existsb find]; try reflexivity.
    - destruct k; reflexivity.
    - destruct k; reflexivity.
    - destruct (existsb (String.eqb name) reflect.time_fields); reflexivity.
    - destruct kt, m as [m|]; cbn -[existsb find]; try reflexivity;
        destruct (find (reflect.is_key name) m) as [[k e]|]; reflexivity.
    - destruct (find (reflect.is_field name) fs) as [[[n e] x]|];
        cbn; [destruct e|]; reflexivity. }
  assert (Hptr : forall x,
    reflect.Kind_eqb (reflect.kind_of_value x) reflect.Ptr =
    match underlying x with VPtr _ => true | _ => false end).
  { intros x. unfold reflect.kind_of_value.
    destruct (underlying x) as
      [ | | k n | k n | | | | | | | | | | | | ];
      try reflexivity; destruct k; reflexivity. }
  destruct (is_VNil item) eqn:En.
  - destruct item; try discriminate. reflexivity.
  - assert (Hval :
      reflect.ValueOf item = reflect.mkValue (Some item) false false)
      by (destruct item; try discriminate; reflexivity).
    assert (Hm : forall (A : Type) (x y : A),
      match item with VNil => x | _ => y end = y)
      by (intros; destruct item; try discriminate; reflexivity).
    unfold getField. rewrite Hm, Hval.
    change (reflect.Kind_ (reflect.mkValue (Some item) false false))
      with (reflect.kind_of_value item).
    rewrite Hptr. unfold target, reflect.Elem.
    cbn [reflect.data reflect.isIface reflect.flagRO].
    destruct (underlying item) as
      [ | | | | | | | | | | | | [[[|] t]|] | | | ];
      cbv zeta; try apply Hrec; reflexivity.
Qed.




(** A field that is not exported makes the accessor panic, and so does a
    map whose keys are not strings. *)
Lemma getField_faults :
  getField (VStruct [("name", false, VString "x")]) "name"
    = Panic reflect.unexported
  /\ (exists e,
        getField (VMap KeyOther (Some [(VInt KInt 1, VString "x")])) "name"
        = Panic e).
Proof. split; [reflexivity | eexists; reflexivity]. Qed.

(** ** Bulk filtering *)

Section FilterFacts.

Variable iface_eq : value -> value -> res bool.
Variable DeepEqual : value -> value -> bool.

Local Abbreviation eval := (eval iface_eq DeepEqual).
Local Abbreviation Filter := (Filter iface_eq DeepEqual).
Local Abbreviation Filter_loop := (Filter_loop iface_eq DeepEqual).
Local Abbreviation matchb := (matchb iface_eq DeepEqual).
Local Abbreviation faultb := (faultb iface_eq DeepEqual).

Lemma len_nonneg {A : Type} (l : list A) : 0 <= len l.
Proof. unfold len. lia. Qed.

(** The nil query with neither skip nor limit returns the records. *)
Lemma Filter_nil_all (data : list value) :
  Filter data (QVal VNil) 0 0 = (data, None).
Proof. reflexivity. Qed.

(** The nil query with a positive limit returns the range
    [[min(skip, len), min(skip + limit, len))] of the records. *)
Lemma Filter_nil_range (data : list value) (skip limit : Z) :
  0 <= skip -> 0 < limit -> GoInt.in_range (skip + limit) ->
  Filter data (QVal VNil) skip limit =
  (firstn (Z.to_nat limit) (skipn (Z.to_nat skip) data), None).
Proof.
  intros Hs Hl Hr. unfold Filter. simpl.
  rewrite GoInt_add_small by exact Hr.
  pose proof (len_nonneg data) as Hlen.
  destruct ((skip =? 0) && ((limit =? 0) || (limit >=? len data))) eqn:E.
  - apply andb_true_iff in E. destruct E as [E1 E2].
    apply Z.eqb_eq in E1. subst skip.
    apply orb_true_iff in E2. destruct E2 as [E2|E2]; [lia|].
    apply Z.geb_le in E2. simpl.
    rewrite firstn_all2; [reflexivity|]. unfold len in E2. lia.
  - unfold slice.
    replace ((0 <=? Z.min skip (len data))
             && (Z.min skip (len data) <=? Z.min (skip + limit) (len data))
             && (Z.min (skip + limit) (len data) <=? len data))
      with true by (symmetry; rewrite !andb_true_iff, !Z.leb_le; lia).
    f_equal. unfold len in *.
    destruct (Z.le_gt_cases skip (Z.of_nat (List.length data))) as [H|H].
    + rewrite (Z.min_l skip) by lia.
      destruct (Z.le_gt_cases (skip + limit) (Z.of_nat (List.length data)))
        as [H'|H'].
      * rewrite Z.min_l by lia. f_equal. lia.
      * rewrite Z.min_r by lia.
        rewrite !firstn_all2; try reflexivity;
          rewrite length_skipn; lia.
    + rewrite !Z.min_r by lia.
      rewrite !skipn_all2 by lia. rewrite !firstn_nil. reflexivity.
Qed.

(** C1, the divergence. With the nil query, a positive [skip] and
    [limit = 0], [Filter] returns no record at all, not the records from
    index [skip] onward: the upper bound of the slice is
    [min(skip + 0, len)]. *)
Theorem Filter_nil_skip_no_limit (data : list value) (skip : Z) :
  0 < skip -> GoInt.in_range skip ->
  Filter data (QVal VNil) skip 0 = ([], None).
Proof.
  intros Hs Hr. unfold Filter. simpl.
  replace (skip =? 0) with false by (symmetry; apply Z.eqb_neq; lia).
  simpl. unfold GoInt.add. rewrite Z.add_0_r, GoInt_wrap_in_range by exact Hr.
  unfold slice. pose proof (len_nonneg data) as Hlen.
  replace ((0 <=? Z.min skip (len data))
           && (Z.min skip (len data) <=? Z.min skip (len data))
           && (Z.min skip (len data) <=? len data))
    with true by (symmetry; rewrite !andb_true_iff, !Z.leb_le; lia).
  rewrite Z.sub_diag. reflexivity.
Qed.

(** *** The scan for a non-nil query *)

Local Abbreviation nofault q l := (Forall (fun x => faultb q x = false) l).

Lemma matchb_Ok (q : query) (x : value) (b : bool) :
  eval q x = Ok b -> matchb q x = b.
Proof. unfold matchb. intros ->. destruct b; reflexivity. Qed.

Lemma faultb_false (q : query) (x : value) :
  faultb q x = false -> exists b, eval q x = Ok b.
Proof.
  unfold faultb. destruct (eval q x) as [b|r]; [eauto|discriminate].
Qed.

Lemma len_app {A : Type} (l l' : list A) : len (l ++ l') = len l + len l'.
Proof. unfold len. rewrite length_app. lia. Qed.

Lemma len_cons {A : Type} (x : A) (l : list A) : len (x :: l) = 1 + len l.
Proof. unfold len. simpl List.length. lia. Qed.

(** The state of the loop after a prefix without fault in which the limit
    is not reached: the first matches up to [skip] are counted, the others
    appended. *)
Lemma Filter_loop_scan (q : query) (skip limit : Z) (pre : list value) :
  GoInt.in_range skip -> nofault q pre ->
  forall count result,
    0 <= count ->
    let result' :=
      (result ++ skipn (Z.to_nat (skip - count)) (filter (matchb q) pre))%list
    in
    limit <= 0 \/ len result' < limit ->
    exists count',
      0 <= count' /\
      forall rest,
        Filter_loop q skip limit (pre ++ rest) count result =
        Filter_loop q skip limit rest count' result'.
Proof.
  intros Hskip Hpre. induction Hpre as [|x pre Hx Hpre IH];
    intros count result Hcount result' Hlim.
  - exists count. split; [exact Hcount|]. intros rest. subst result'.
    simpl. rewrite skipn_nil, app_nil_r. reflexivity.
  - destruct (faultb_false q x Hx) as [b Hb].
    pose proof (matchb_Ok q x b Hb) as Hm.
    subst result'. simpl filter in Hlim |- *. rewrite Hm in Hlim |- *.
    destruct b.
    + destruct (Z.ltb_spec count skip) as [Hlt|Hge].
      * replace (Z.to_nat (skip - count))
          with (S (Z.to_nat (skip - (count + 1)))) in Hlim |- * by lia.
        simpl skipn in Hlim |- *.
        destruct (IH (count + 1) result ltac:(lia) Hlim) as (c' & Hc' & Hrun).
        exists c'. split; [exact Hc'|]. intros rest. simpl.
        rewrite Hb.
        replace (count <? skip) with true by (symmetry; apply Z.ltb_lt; lia).
        rewrite GoInt_add_small.
        -- apply Hrun.
        -- unfold GoInt.in_range, GoInt.min_int, GoInt.max_int in *. lia.
      * replace (Z.to_nat (skip - count)) with 0%nat in Hlim |- * by lia.
        simpl skipn in Hlim |- *.
        assert (Hlim' : limit <= 0 \/
          len ((result ++ [x]) ++
               skipn (Z.to_nat (skip - count)) (filter (matchb q) pre)) < limit).
        { replace (Z.to_nat (skip - count)) with 0%nat by lia.
          simpl skipn. rewrite <- app_assoc. exact Hlim. }
        destruct (IH count (result ++ [x])%list Hcount Hlim')
          as (c' & Hc' & Hrun).
        exists c'. split; [exact Hc'|]. intros rest. simpl.
        rewrite Hb.
        replace (count <? skip) with false by (symmetry; apply Z.ltb_ge; lia).
        replace ((limit >? 0) && (len (result ++ [x]) >=? limit)) with false.
        -- rewrite Hrun.
           replace (Z.to_nat (skip - count)) with 0%nat by lia.
           simpl skipn. rewrite <- app_assoc. reflexivity.
        -- symmetry. apply andb_false_iff.
           destruct Hlim as [Hl|Hl].
           ++ left. rewrite Z.gtb_ltb. apply Z.ltb_ge. exact Hl.
           ++ right. rewrite Z.geb_leb. apply Z.leb_gt.
              rewrite !len_app, len_cons in Hl. rewrite len_app.
              pose proof (len_nonneg (filter (matchb q) pre)).
              unfold len at 2. simpl. lia.
    + destruct (IH count result Hcount Hlim) as (c' & Hc' & Hrun).
      exists c'. split; [exact Hc'|]. intros rest. simpl.
      rewrite Hb. apply Hrun.
Qed.

(** The loop returns as soon as the limit is reached, whatever follows. *)
Lemma Filter_loop_stop (q : query) (skip limit : Z) (pre : list value) :
  GoInt.in_range skip -> nofault q pre -> 0 < limit ->
  forall count result rest,
    0 <= count ->
    let result' :=
      (result ++ skipn (Z.to_nat (skip - count)) (filter (matchb q) pre))%list
    in
    len result < limit -> limit <= len result' ->
    Filter_loop q skip limit (pre ++ rest) count result =
    (firstn (Z.to_nat limit) result', None).
Proof.
  intros Hskip Hpre Hpos. induction Hpre as [|x pre Hx Hpre IH];
    intros count result rest Hcount result' Hlt Hle.
  - subst result'. simpl in Hle. rewrite skipn_nil, app_nil_r in Hle. lia.
  - destruct (faultb_false q x Hx) as [b Hb].
    pose proof (matchb_Ok q x b Hb) as Hm.
    subst result'. simpl filter in Hle |- *. rewrite Hm in Hle |- *.
    simpl. rewrite Hb. destruct b.
    + destruct (Z.ltb_spec count skip) as [Hc|Hc].
      * replace (Z.to_nat (skip - count))
          with (S (Z.to_nat (skip - (count + 1)))) in Hle |- * by lia.
        simpl skipn in Hle |- *.
        rewrite GoInt_add_small
          by (unfold GoInt.in_range, GoInt.min_int, GoInt.max_int in *; lia).
        apply IH; [lia | exact Hlt | exact Hle].
      * replace (Z.to_nat (skip - count)) with 0%nat in Hle |- * by lia.
        simpl skipn in Hle |- *.
        replace (limit >? 0) with true
          by (symmetry; rewrite Z.gtb_ltb; apply Z.ltb_lt; lia).
        simpl andb.
        assert (Hlen1 : len (result ++ [x]) = len result + 1)
          by (rewrite len_app; reflexivity).
        destruct (Z.leb_spec limit (len (result ++ [x]))) as [Hr|Hr].
        -- replace (len (result ++ [x]) >=? limit) with true
             by (symmetry; rewrite Z.geb_leb; apply Z.leb_le; lia).
           f_equal.
           replace (result ++ x :: filter (matchb q) pre)%list
             with ((result ++ [x]) ++ filter (matchb q) pre)%list
             by (rewrite <- app_assoc; reflexivity).
           replace (Z.to_nat limit) with (List.length (result ++ [x]) + 0)%nat
             by (unfold len in *; lia).
           rewrite firstn_app_2. simpl. rewrite app_nil_r. reflexivity.
        -- replace (len (result ++ [x]) >=? limit) with false
             by (symmetry; rewrite Z.geb_leb; apply Z.leb_gt; lia).
           specialize (IH count (result ++ [x])%list rest Hcount Hr).
           replace (Z.to_nat (skip - count)) with 0%nat in IH by lia.
           simpl skipn in IH. rewrite <- app_assoc in IH. simpl in IH.
           apply IH. exact Hle.
    + apply IH; [exact Hcount | exact Hlt | exact Hle].
Qed.

Lemma Filter_nonnil (data : list value) (q : query) (skip limit : Z) :
  is_nil_query q = false ->
  Filter data q skip limit = Filter_loop q skip limit data 0 [].
Proof. unfold Filter. intros ->. reflexivity. Qed.

Lemma fault_not_nil_query (q : query) (x : value) (r : string) :
  eval q x = Panic r -> is_nil_query q = false.
Proof.
  destruct q as [p|m|v]; try reflexivity.
  destruct v; try reflexivity. discriminate.
Qed.

(** Without fault, the scan returns the paginated matches. *)
Lemma Filter_paginate (data : list value) (q : query) (skip limit : Z) :
  is_nil_query q = false -> GoInt.in_range skip -> nofault q data ->
  Filter data q skip limit =
  (paginate skip limit (filter (matchb q) data), None).
Proof.
  intros Hq Hskip Hdata. rewrite Filter_nonnil by exact Hq.
  unfold paginate.
  set (ms := skipn (Z.to_nat skip) (filter (matchb q) data)).
  destruct (Z.gtb_spec limit 0) as [Hpos|Hneg].
  - destruct (Z.le_gt_cases limit (len ms)) as [Hreach|Hshort].
    + rewrite <- (app_nil_r data).
      rewrite (Filter_loop_stop q skip limit data Hskip Hdata ltac:(lia)
                 0 [] [] ltac:(lia));
        rewrite ?Z.sub_0_r; simpl; fold ms; auto.
    + destruct (Filter_loop_scan q skip limit data Hskip Hdata 0 []
                  ltac:(lia)) as (c' & _ & Hrun).
      { right. rewrite Z.sub_0_r. simpl. fold ms. lia. }
      rewrite <- (app_nil_r data), Hrun. rewrite Z.sub_0_r. simpl. fold ms.
      rewrite firstn_all2; [reflexivity|]. unfold len in Hshort. lia.
  - destruct (Filter_loop_scan q skip limit data Hskip Hdata 0 []
                ltac:(lia)) as (c' & _ & Hrun).
    { left. lia. }
    rewrite <- (app_nil_r data), Hrun. rewrite Z.sub_0_r. reflexivity.
Qed.

(** C6. For a non-nil query, [Filter] returns the records on which [eval]
    is true, in the order of the input, without the first [skip] of them and
    cut after [limit] of them when [limit] is positive; once [limit] matches
    are collected the scan stops, so that nothing after that point, not even
    a record on which [eval] would panic, changes the result; of five
    matching records, [skip = 1] and [limit = 2] return the second and the
    third. *)
Theorem Filter_scan_skip_limit (q : query) (skip limit : Z) :
  is_nil_query q = false -> GoInt.in_range skip ->
  (forall data,
     nofault q data ->
     Filter data q skip limit =
     (paginate skip limit (filter (matchb q) data), None))
  /\ (forall pre post,
        nofault q pre -> 0 < limit ->
        limit <= len (skipn (Z.to_nat skip) (filter (matchb q) pre)) ->
        Filter (pre ++ post) q skip limit =
        (firstn (Z.to_nat limit)
           (skipn (Z.to_nat skip) (filter (matchb q) pre)), None))
  /\ (forall r1 r2 r3 r4 r5,
        Forall (fun x => eval q x = Ok true) [r1; r2; r3; r4; r5] ->
        Filter [r1; r2; r3; r4; r5] q 1 2 = ([r2; r3], None)).
Proof.
  intros Hq Hskip. split; [|split].
  - intros data Hdata. apply Filter_paginate; assumption.
  - intros pre post Hpre Hpos Hreach. rewrite Filter_nonnil by exact Hq.
    rewrite (Filter_loop_stop q skip limit pre Hskip Hpre Hpos 0 [] post
               ltac:(lia));
      rewrite ?Z.sub_0_r; simpl; auto.
  - intros r1 r2 r3 r4 r5 Hall.
    assert (Hm : forall x, In x [r1; r2; r3; r4; r5] -> eval q x = Ok true)
      by (apply Forall_forall; exact Hall).
    rewrite Filter_nonnil by exact Hq. simpl.
    rewrite !Hm by (simpl; auto 10). reflexivity.
Qed.

(** C4. When [eval] panics on a record that the scan reaches (no fault
    before it, and the limit not reached before it), [Filter] returns the
    matches collected before that record, which are those it returns on
    the records before it, with a non-nil error made from the panic value;
    the records after it have no part in the result. *)
Theorem Filter_fault_partial (pre post : list value) (x : value) (r : string)
  (q : query) (skip limit : Z) :
  GoInt.in_range skip ->
  nofault q pre ->
  eval q x = Panic r ->
  limit <= 0 \/
  len (skipn (Z.to_nat skip) (filter (matchb q) pre)) < limit ->
  Filter (pre ++ x :: post) q skip limit =
  (skipn (Z.to_nat skip) (filter (matchb q) pre),
   Some (Errorf "panic during filtering: " r))
  /\ fst (Filter pre q skip limit) =
     skipn (Z.to_nat skip) (filter (matchb q) pre).
Proof.
  intros Hskip Hpre Hx Hlim.
  pose proof (fault_not_nil_query q x r Hx) as Hq.
  split.
  - rewrite Filter_nonnil by exact Hq.
    destruct (Filter_loop_scan q skip limit pre Hskip Hpre 0 [] ltac:(lia))
      as (c' & _ & Hrun).
    { rewrite Z.sub_0_r. exact Hlim. }
    rewrite Hrun, Z.sub_0_r. simpl. rewrite Hx. reflexivity.
  - rewrite Filter_paginate by assumption. unfold paginate. simpl.
    destruct (Z.gtb_spec limit 0) as [Hpos|Hneg]; [|reflexivity].
    destruct Hlim as [Hl|Hl]; [lia|].
    apply firstn_all2. unfold len in Hl. lia.
Qed.

End FilterFacts.

Lemma Filter_nil_skip_no_limit_witness :
  Filter ifaceEq deepEqual [VInt KInt 1; VInt KInt 2; VInt KInt 3]
    (QVal VNil) 1 0 = ([], None)
  /\ skipn 1 [VInt KInt 1; VInt KInt 2; VInt KInt 3]
     = [VInt KInt 2; VInt KInt 3].
Proof.
  split; [|reflexivity].
  apply Filter_nil_skip_no_limit;
    unfold GoInt.in_range, GoInt.min_int, GoInt.max_int; lia.
Defined.

(** ** Streaming *)

Section StreamFacts.

Variable iface_eq : value -> value -> res bool.
Variable DeepEqual : value -> value -> bool.

Local Abbreviation eval := (eval iface_eq DeepEqual).
Local Abbreviation FilterC := (FilterC iface_eq DeepEqual).
Local Abbreviation FilterC_loop := (FilterC_loop iface_eq DeepEqual).
Local Abbreviation matchb := (matchb iface_eq DeepEqual).
Local Abbreviation faultOf := (faultOf iface_eq DeepEqual).
Local Abbreviation received := (received iface_eq DeepEqual).

Lemma subseq_nil_l {A : Type} (l : list A) : subseq [] l.
Proof. induction l; constructor; assumption. Qed.

(** What is sent on [output] is a subsequence of what was received. *)
Lemma FilterC_loop_subseq (q : query) (skip limit : Z) (input : list value) :
  forall matched sent,
    subseq (outputs (FilterC_loop q skip limit input matched sent)) input.
Proof.
  induction input as [|x input IH]; intros matched sent; simpl.
  - constructor.
  - destruct (eval q x) as [[|]|r]; simpl.
    + destruct (GoInt.add matched 1 <=? skip); [constructor; apply IH|].
      destruct ((limit >? 0) && (sent >=? limit)); simpl.
      * apply subseq_nil_l.
      * constructor. apply IH.
    + constructor. apply IH.
    + constructor. apply IH.
Qed.

(** The errors are those of the items that were received before the stage
    returned. *)
Lemma FilterC_loop_errors (q : query) (skip limit : Z) (input : list value) :
  forall matched sent,
    exists consumed rest,
      input = (consumed ++ rest)%list
      /\ errors (FilterC_loop q skip limit input matched sent)
         = flat_map (faultOf q) consumed.
Proof.
  induction input as [|x input IH]; intros matched sent.
  - exists [], []. split; reflexivity.
  - simpl. unfold faultOf.
    destruct (eval q x) as [[|]|r] eqn:Hx.
    + destruct (GoInt.add matched 1 <=? skip).
      * destruct (IH (GoInt.add matched 1) sent) as (c & rest & Hin & Herr).
        exists (x :: c), rest. split; [simpl; congruence|].
        simpl. rewrite Hx. exact Herr.
      * destruct ((limit >? 0) && (sent >=? limit)).
        -- exists [], (x :: input). split; reflexivity.
        -- destruct (IH (GoInt.add matched 1) (GoInt.add sent 1))
             as (c & rest & Hin & Herr).
           exists (x :: c), rest. split; [simpl; congruence|].
           simpl. rewrite Hx. exact Herr.
    + destruct (IH matched sent) as (c & rest & Hin & Herr).
      exists (x :: c), rest. split; [simpl; congruence|].
      simpl. rewrite Hx. exact Herr.
    + destruct (IH matched sent) as (c & rest & Hin & Herr).
      exists (x :: c), rest. split; [simpl; congruence|].
      simpl. rewrite Hx. simpl. f_equal. exact Herr.
Qed.

(** Without a limit the stage receives every item: the matches after the
    first [skip] go to [output], every fault gives one error. *)
Lemma FilterC_loop_unbounded (q : query) (skip limit : Z)
  (input : list value) :
  limit <= 0 ->
  forall matched sent,
    0 <= matched -> matched + len input <= GoInt.max_int ->
    let tr := FilterC_loop q skip limit input matched sent in
    outputs tr = skipn (Z.to_nat (skip - matched)) (filter (matchb q) input)
    /\ errors tr = flat_map (faultOf q) input.
Proof.
  intros Hlim. induction input as [|x input IH];
    intros matched sent Hm Hlen tr; subst tr.
  - simpl. rewrite skipn_nil. split; reflexivity.
  - rewrite len_cons in Hlen. pose proof (len_nonneg input) as Hnn.
    simpl. unfold matchb, faultOf.
    destruct (eval q x) as [[|]|r] eqn:Hx.
    + rewrite GoInt_add_small
        by (unfold GoInt.in_range, GoInt.min_int, GoInt.max_int in *; lia).
      replace (limit >? 0) with false
        by (symmetry; rewrite Z.gtb_ltb; apply Z.ltb_ge; lia).
      simpl andb.
      destruct (Z.leb_spec (matched + 1) skip) as [Hs|Hs].
      * destruct (IH (matched + 1) sent ltac:(lia) ltac:(lia)) as [Ho He].
        replace (Z.to_nat (skip - matched))
          with (S (Z.to_nat (skip - (matched + 1)))) by lia.
        simpl skipn. split; assumption.
      * destruct (IH (matched + 1) (GoInt.add sent 1) ltac:(lia) ltac:(lia))
          as [Ho He].
        replace (Z.to_nat (skip - matched)) with 0%nat by lia.
        replace (Z.to_nat (skip - (matched + 1))) with 0%nat in Ho by lia.
        simpl in Ho |- *. split; [f_equal|]; assumption.
    + destruct (IH matched sent Hm ltac:(lia)) as [Ho He].
      split; assumption.
    + destruct (IH matched sent Hm ltac:(lia)) as [Ho He].
      simpl. split; [assumption | f_equal; assumption].
Qed.

(** With a limit, the first [limit] matches after the first [skip] go to
    [output]. *)
Lemma FilterC_loop_bounded (q : query) (skip limit : Z) (input : list value) :
  0 < limit -> GoInt.in_range limit ->
  forall matched sent,
    0 <= matched -> matched + len input <= GoInt.max_int -> 0 <= sent ->
    outputs (FilterC_loop q skip limit input matched sent)
    = firstn (Z.to_nat (limit - sent))
        (skipn (Z.to_nat (skip - matched)) (filter (matchb q) input)).
Proof.
  intros Hpos Hlimit. induction input as [|x input IH];
    intros matched sent Hm Hlen Hs.
  - simpl. rewrite skipn_nil, firstn_nil. reflexivity.
  - rewrite len_cons in Hlen. pose proof (len_nonneg input) as Hnn.
    simpl. unfold matchb.
    destruct (eval q x) as [[|]|r] eqn:Hx.
    + rewrite GoInt_add_small
        by (unfold GoInt.in_range, GoInt.min_int, GoInt.max_int in *; lia).
      replace (limit >? 0) with true
        by (symmetry; rewrite Z.gtb_ltb; apply Z.ltb_lt; lia).
      simpl andb.
      destruct (Z.leb_spec (matched + 1) skip) as [Hsk|Hsk].
      * rewrite (IH (matched + 1) sent) by lia.
        replace (Z.to_nat (skip - matched))
          with (S (Z.to_nat (skip - (matched + 1)))) by lia.
        reflexivity.
      * replace (Z.to_nat (skip - matched)) with 0%nat by lia.
        simpl skipn.
        destruct (Z.leb_spec limit sent) as [Hfull|Hroom].
        -- replace (sent >=? limit) with true
             by (symmetry; rewrite Z.geb_leb; apply Z.leb_le; lia).
           replace (Z.to_nat (limit - sent)) with 0%nat by lia.
           reflexivity.
        -- replace (sent >=? limit) with false
             by (symmetry; rewrite Z.geb_leb; apply Z.leb_gt; lia).
           rewrite GoInt_add_small
             by (unfold GoInt.in_range, GoInt.min_int, GoInt.max_int in *;
                 lia).
           simpl outputs. rewrite (IH (matched + 1) (sent + 1)) by lia.
           replace (Z.to_nat (skip - (matched + 1))) with 0%nat by lia.
           replace (Z.to_nat (limit - sent))
             with (S (Z.to_nat (limit - (sent + 1)))) by lia.
           reflexivity.
    + apply IH; lia.
    + simpl. apply IH; lia.
Qed.

(** [upto] gives a prefix. *)
Lemma upto_prefix {A : Type} (p : A -> bool) (l : list A) :
  forall n, exists rest, l = (upto p n l ++ rest)%list.
Proof.
  induction l as [|x l IH]; intros n; simpl.
  - exists []. reflexivity.
  - destruct n as [|n].
    + exists (x :: l). reflexivity.
    + destruct (IH (if p x then n else S n)) as [rest Hr].
      exists rest. simpl. f_equal. exact Hr.
Qed.

(** With a limit, the stage returns at the match that it meets once
    [limit] matches were sent: the errors are those of the items up to that
    match, one for each item on which [eval] panics. *)
Lemma FilterC_loop_received (q : query) (skip limit : Z)
  (input : list value) :
  0 < limit -> GoInt.in_range limit ->
  forall matched sent,
    0 <= matched -> matched + len input <= GoInt.max_int -> 0 <= sent ->
    errors (FilterC_loop q skip limit input matched sent)
    = flat_map (faultOf q)
        (upto (matchb q)
           (Z.to_nat (skip - matched) + Z.to_nat (limit - sent) + 1) input).
Proof.
  intros Hpos Hlimit. induction input as [|x input IH];
    intros matched sent Hm Hlen Hs.
  - reflexivity.
  - rewrite len_cons in Hlen. pose proof (len_nonneg input) as Hnn.
    rewrite Nat.add_1_r. cbn [upto flat_map].
    assert (Hf : faultOf q x =
                 match eval q x with
                 | Panic r => [Errorf "panic during filter evaluation: " r]
                 | Ok _ => []
                 end) by reflexivity.
    assert (Hb : matchb q x =
                 match eval q x with Ok true => true | _ => false end)
      by reflexivity.
    rewrite Hf, Hb. clear Hf Hb. simpl FilterC_loop.
    destruct (eval q x) as [[|]|r].
    + rewrite GoInt_add_small
        by (unfold GoInt.in_range, GoInt.min_int, GoInt.max_int in *; lia).
      replace (limit >? 0) with true
        by (symmetry; rewrite Z.gtb_ltb; apply Z.ltb_lt; lia).
      simpl andb. simpl app.
      destruct (Z.leb_spec (matched + 1) skip) as [Hsk|Hsk].
      * rewrite (IH (matched + 1) sent) by lia.
        replace (Z.to_nat (skip - (matched + 1)) + Z.to_nat (limit - sent)
                 + 1)%nat
          with (Z.to_nat (skip - matched) + Z.to_nat (limit - sent))%nat
          by lia.
        reflexivity.
      * destruct (Z.leb_spec limit sent) as [Hfull|Hroom].
        -- replace (sent >=? limit) with true
             by (symmetry; rewrite Z.geb_leb; apply Z.leb_le; lia).
           replace (Z.to_nat (skip - matched) + Z.to_nat (limit - sent))%nat
             with 0%nat by lia.
           destruct input; reflexivity.
        -- replace (sent >=? limit) with false
             by (symmetry; rewrite Z.geb_leb; apply Z.leb_gt; lia).
           rewrite GoInt_add_small
             by (unfold GoInt.in_range, GoInt.min_int, GoInt.max_int in *;
                 lia).
           simpl errors. rewrite (IH (matched + 1) (sent + 1)) by lia.
           replace (Z.to_nat (skip - (matched + 1))
                    + Z.to_nat (limit - (sent + 1)) + 1)%nat
             with (Z.to_nat (skip - matched) + Z.to_nat (limit - sent))%nat
             by lia.
           reflexivity.
    + simpl app. rewrite (IH matched sent) by lia.
      rewrite Nat.add_1_r. reflexivity.
    + simpl. rewrite (IH matched sent) by lia.
      rewrite Nat.add_1_r. reflexivity.
Qed.

(** C5. In streaming mode a panic of [eval] stays with its item.
    - What is sent on the output is a subsequence of the input, in its
      order: the matches, paginated, where an item on which [eval] panics
      is no match and the items after it are still evaluated.
    - The errors are, in order, exactly one for each item on which [eval]
      panics among the items that the stage receives before it returns,
      and they carry the value of the panic: without a limit these are all
      the items; with a limit, the items up to the match met once [limit]
      matches were sent, a prefix of the input.
    - When the second of three items panics and the limit does not stop the
      stage before the third, the first and the third are sent if they
      match and exactly one error is reported. *)
Theorem FilterC_fault_isolation (input : list value) (q : query)
  (skip limit : Z) :
  subseq (fst (FilterC input q skip limit)) input
  /\ (len input <= GoInt.max_int -> GoInt.in_range limit ->
      fst (FilterC input q skip limit)
      = paginate skip limit (filter (matchb q) input))
  /\ (len input <= GoInt.max_int -> GoInt.in_range limit ->
      snd (FilterC input q skip limit)
      = flat_map (faultOf q) (received q skip limit input))
  /\ (exists rest, input = (received q skip limit input ++ rest)%list)
  /\ (limit <= 0 -> len input <= GoInt.max_int ->
      snd (FilterC input q skip limit) = flat_map (faultOf q) input)
  /\ (forall x1 x2 x3 b1 b3 r lim,
        lim <= 0 \/ 2 <= lim ->
        eval q x1 = Ok b1 -> eval q x2 = Panic r -> eval q x3 = Ok b3 ->
        FilterC [x1; x2; x3] q 0 lim =
        ((if b1 then [x1] else []) ++ (if b3 then [x3] else []),
         [Errorf "panic during filter evaluation: " r]))%list.
Proof.
  split; [|split; [|split; [|split; [|split]]]].
  - apply FilterC_loop_subseq.
  - intros Hlen Hlimit. unfold FilterC, paginate. cbn [fst].
    destruct (Z.gtb_spec limit 0) as [Hpos|Hneg].
    + rewrite (FilterC_loop_bounded q skip limit input Hpos Hlimit 0 0)
        by lia.
      rewrite !Z.sub_0_r. reflexivity.
    + destruct (FilterC_loop_unbounded q skip limit input Hneg 0 0
                  ltac:(lia) ltac:(lia)) as [Ho _].
      cbv zeta in Ho. rewrite Ho, Z.sub_0_r. reflexivity.
  - intros Hlen Hlimit. unfold FilterC, received. cbn [snd].
    destruct (Z.gtb_spec limit 0) as [Hpos|Hneg].
    + rewrite (FilterC_loop_received q skip limit input Hpos Hlimit 0 0)
        by lia.
      rewrite !Z.sub_0_r. reflexivity.
    + destruct (FilterC_loop_unbounded q skip limit input Hneg 0 0
                  ltac:(lia) ltac:(lia)) as [_ He].
      exact He.
  - unfold received. destruct (limit >? 0).
    + apply upto_prefix.
    + exists []. symmetry. apply app_nil_r.
  - intros Hlim Hlen. unfold FilterC. cbn [snd].
    destruct (FilterC_loop_unbounded q skip limit input Hlim 0 0
                ltac:(lia) ltac:(lia)) as [_ He].
    exact He.
  - intros x1 x2 x3 b1 b3 r lim Hlim H1 H2 H3. unfold FilterC. simpl.
    rewrite H1, H2, H3.
    change (GoInt.add 0 1) with 1. change (GoInt.add 1 1) with 2.
    destruct Hlim as [Hlim|Hlim].
    + replace (lim >? 0) with false
        by (symmetry; rewrite Z.gtb_ltb; apply Z.ltb_ge; lia).
      destruct b1, b3; reflexivity.
    + replace (0 >=? lim) with false
        by (symmetry; rewrite Z.geb_leb; apply Z.leb_gt; lia).
      replace (1 >=? lim) with false
        by (symmetry; rewrite Z.geb_leb; apply Z.leb_gt; lia).
      rewrite !andb_false_r.
      destruct b1, b3; reflexivity.
Qed.

End StreamFacts.

Lemma Filter_scan_skip_limit_witness :
  Filter ifaceEq deepEqual
    [VInt KInt 5; VInt KInt 6; VInt KInt 7; VInt KInt 8; VInt KInt 9]
    (QPred (Gt (VInt KInt 0))) 1 2
  = ([VInt KInt 6; VInt KInt 7], None).
Proof.
  apply (Filter_scan_skip_limit ifaceEq deepEqual (QPred (Gt (VInt KInt 0)))
           1 2).
  - reflexivity.
  - unfold GoInt.in_range, GoInt.min_int, GoInt.max_int; lia.
  - repeat constructor.
Defined.

Lemma FilterC_fault_isolation_witness :
  FilterC ifaceEq deepEqual [VInt KInt 1; VString "boom"; VInt KInt 3]
    (QPred panicOnBoom) 0 0
  = ([VInt KInt 1; VInt KInt 3], ["panic during filter evaluation: boom"])
  /\ snd (FilterC ifaceEq deepEqual
            [VInt KInt 1; VString "boom"; VInt KInt 3]
            (QPred panicOnBoom) 0 5)
     = ["panic during filter evaluation: boom"]
  /\ snd (FilterC ifaceEq deepEqual
            [VInt KInt 1; VString "boom"; VInt KInt 3; VString "boom"]
            (QPred panicOnBoom) 0 1)
     = ["panic during filter evaluation: boom"].
Proof.
  split; [|split].
  - destruct (FilterC_fault_isolation ifaceEq deepEqual
                [VInt KInt 1; VString "boom"; VInt KInt 3]
                (QPred panicOnBoom) 0 0) as (_ & _ & _ & _ & _ & H).
    apply (H (VInt KInt 1) (VString "boom") (VInt KInt 3) true true "boom" 0);
      [left; lia | reflexivity ..].
  - destruct (FilterC_fault_isolation ifaceEq deepEqual
                [VInt KInt 1; VString "boom"; VInt KInt 3]
                (QPred panicOnBoom) 0 5) as (_ & _ & H & _).
    refine (eq_trans (H _ _) eq_refl);
      unfold len, GoInt.in_range, GoInt.min_int, GoInt.max_int; simpl; lia.
  - destruct (FilterC_fault_isolation ifaceEq deepEqual
                [VInt KInt 1; VString "boom"; VInt KInt 3; VString "boom"]
                (QPred panicOnBoom) 0 1) as (_ & _ & H & _).
    refine (eq_trans (H _ _) eq_refl);
      unfold len, GoInt.in_range, GoInt.min_int, GoInt.max_int; simpl; lia.
Defined.

Lemma Filter_fault_partial_witness :
  Filter ifaceEq deepEqual
    ([VInt KInt 1; VInt KInt 2] ++ VString "boom" :: [VInt KInt 3])
    (QPred panicOnBoom) 1 0
  = ([VInt KInt 2], Some "panic during filtering: boom").
Proof.
  apply (Filter_fault_partial ifaceEq deepEqual [VInt KInt 1; VInt KInt 2]
           [VInt KInt 3] (VString "boom") "boom" (QPred panicOnBoom) 1 0).
  - unfold GoInt.in_range, GoInt.min_int, GoInt.max_int; lia.
  - repeat constructor.
  - reflexivity.
  - left. lia.
Defined.

(** ** Rounding to a floating-point format *)

Section Rounding.

Variables prec emax : Z.

Local Abbreviation fexp := (fexp prec emax).
Local Abbreviation binary_round := (binary_round prec emax).
Local Abbreviation binary_round_aux := (binary_round_aux prec emax).
Local Abbreviation shr_fexp := (shr_fexp prec emax).
Local Abbreviation truncated := (truncated prec emax).
Local Abbreviation finish := (finish prec emax).

Lemma iter_pos_Pos_iter {A : Type} (f : A -> A) (p : positive) :
  forall x, iter_pos f p x = Pos.iter f x p.
Proof.
  induction p as [p IH|p IH|]; intros x; simpl.
  - rewrite !IH. rewrite <- !Pos.iter_swap. reflexivity.
  - rewrite !IH. reflexivity.
  - reflexivity.
Qed.

Lemma iter_pos_succ {A : Type} (f : A -> A) (p : positive) (x : A) :
  iter_pos f (Pos.succ p) x = iter_pos f p (f x).
Proof.
  rewrite !iter_pos_Pos_iter, Pos.iter_succ, Pos.iter_swap. reflexivity.
Qed.

Lemma iter_pos_invariant {A : Type} (f : A -> A) (P : A -> Prop) :
  (forall x, P x -> P (f x)) -> forall p x, P x -> P (iter_pos f p x).
Proof.
  intros Hf p x Hx. rewrite iter_pos_Pos_iter.
  apply Pos.iter_invariant; [intros; apply Hf; assumption | exact Hx].
Qed.

Lemma binary_round_finish (s : bool) (m : positive) (e : Z) :
  binary_round s m e = finish s (truncated m e).
Proof.
  unfold SpecFloat.binary_round, truncated, finish,
    SpecFloat.binary_round_aux.
  destruct (shl_align m e _) as [mz ez]. reflexivity.
Qed.

Lemma shr_1_xO (m : positive) :
  shr_1 (Build_shr_record (Zpos (xO m)) false false)
  = Build_shr_record (Zpos m) false false.
Proof. reflexivity. Qed.

(** Doubling the mantissa and decrementing the exponent changes nothing. *)
Lemma truncated_xO (m : positive) (e : Z) :
  truncated (xO m) (e - 1) = truncated m e.
Proof.
  unfold truncated. simpl digits2_pos.
  replace (Zpos (Pos.succ (digits2_pos m)) + (e - 1))
    with (Zpos (digits2_pos m) + e) by lia.
  set (t := fexp (Zpos (digits2_pos m) + e)).
  unfold shl_align.
  destruct (t - e) as [|p|d] eqn:Hte.
  - (* t = e: one bit is shifted out again *)
    replace (t - (e - 1)) with 1 by lia.
    unfold SpecFloat.shr_fexp, Zdigits2. simpl digits2_pos.
    replace (Zpos (Pos.succ (digits2_pos m)) + (e - 1))
      with (Zpos (digits2_pos m) + e) by lia.
    fold t. rewrite Hte.
    replace (t - (e - 1)) with 1 by lia.
    unfold shr, shr_record_of_loc. simpl iter_pos.
    f_equal. lia.
  - (* t > e *)
    replace (t - (e - 1)) with (Zpos (Pos.succ p)) by lia.
    unfold SpecFloat.shr_fexp, Zdigits2. simpl digits2_pos.
    replace (Zpos (Pos.succ (digits2_pos m)) + (e - 1))
      with (Zpos (digits2_pos m) + e) by lia.
    fold t. rewrite Hte.
    replace (t - (e - 1)) with (Zpos (Pos.succ p)) by lia.
    unfold shr, shr_record_of_loc.
    rewrite iter_pos_succ, shr_1_xO. f_equal. lia.
  - (* t < e: both mantissas are aligned to t *)
    destruct (Pos.eq_dec d 1) as [->|Hd].
    + replace (t - (e - 1)) with 0 by lia.
      simpl Pos.iter. replace (e - 1) with t by lia. reflexivity.
    + replace (t - (e - 1)) with (Zneg (Pos.pred d)) by lia.
      replace (Pos.iter xO (xO m) (Pos.pred d)) with (Pos.iter xO m d);
        [reflexivity|].
      rewrite <- (Pos.succ_pred d) at 1 by exact Hd.
      rewrite Pos.iter_succ, Pos.iter_swap. reflexivity.
Qed.

Lemma binary_round_xO (s : bool) (m : positive) (e : Z) :
  binary_round s (xO m) (e - 1) = binary_round s m e.
Proof. rewrite !binary_round_finish, truncated_xO. reflexivity. Qed.

Lemma binary_round_shift (s : bool) (m : positive) (e : Z) (d : nat) :
  binary_round s (Pos.shiftl_nat m d) (e - Z.of_nat d) = binary_round s m e.
Proof.
  induction d as [|d IH].
  - simpl. f_equal. lia.
  - change (Pos.shiftl_nat m (S d)) with (xO (Pos.shiftl_nat m d)).
    replace (e - Z.of_nat (S d)) with (e - Z.of_nat d - 1) by lia.
    rewrite binary_round_xO. exact IH.
Qed.

Lemma Zpos_shiftl_nat (m : positive) (d : nat) :
  Zpos (Pos.shiftl_nat m d) = Zpos m * 2 ^ Z.of_nat d.
Proof.
  induction d as [|d IH].
  - simpl. lia.
  - change (Pos.shiftl_nat m (S d)) with (xO (Pos.shiftl_nat m d)).
    rewrite Pos2Z.inj_xO, IH, Nat2Z.inj_succ, Z.pow_succ_r by lia. lia.
Qed.

(** Rounding depends on the number only, not on the pair that stands for
    it. *)
Lemma binary_round_sameNumber (s : bool) (m1 m2 : positive) (e1 e2 : Z) :
  sameNumber (Zpos m1, e1) (Zpos m2, e2) ->
  binary_round s m1 e1 = binary_round s m2 e2.
Proof.
  unfold sameNumber. cbn [fst snd]. intros H.
  destruct (Z.le_ge_cases e1 e2) as [Hle|Hge].
  - rewrite Z.min_l, Z.sub_diag, Z.pow_0_r, Z.mul_1_r in H by exact Hle.
    rewrite <- (Z2Nat.id (e2 - e1)) in H by lia.
    rewrite <- Zpos_shiftl_nat in H. injection H as ->.
    rewrite <- (binary_round_shift s m2 e2 (Z.to_nat (e2 - e1))).
    f_equal. lia.
  - rewrite Z.min_r, Z.sub_diag, Z.pow_0_r, Z.mul_1_r in H by lia.
    rewrite <- (Z2Nat.id (e1 - e2)) in H by lia.
    rewrite <- Zpos_shiftl_nat in H. injection H as <-.
    rewrite <- (binary_round_shift s m1 e1 (Z.to_nat (e1 - e2))).
    f_equal. lia.
Qed.

(** A canonical number of the format is its own rounding. *)
Lemma binary_round_canonical (s : bool) (m : positive) (e : Z) :
  bounded prec emax m e = true ->
  binary_round s m e = S754_finite s m e.
Proof.
  unfold bounded, canonical_mantissa. intros H.
  apply andb_true_iff in H. destruct H as [Hc Hb].
  apply Z.eqb_eq in Hc.
  unfold SpecFloat.binary_round. rewrite Hc.
  unfold shl_align. rewrite Z.sub_diag.
  unfold SpecFloat.binary_round_aux, SpecFloat.shr_fexp, Zdigits2.
  rewrite Hc, Z.sub_diag. cbn [shr shr_record_of_loc shr_m
    loc_of_shr_record round_nearest_even].
  rewrite Hc, Z.sub_diag. cbn [shr shr_record_of_loc shr_m].
  rewrite Hb. reflexivity.
Qed.

Lemma shr_1_nonneg (mrs : shr_record) :
  0 <= shr_m mrs -> 0 <= shr_m (shr_1 mrs).
Proof.
  destruct mrs as [m r s0]. simpl.
  destruct m as [|[p|p|]|[p|p|]]; simpl; lia.
Qed.

Lemma shr_fexp_nonneg (m e : Z) (l : location) :
  0 <= m -> 0 <= shr_m (fst (shr_fexp m e l)).
Proof.
  intros Hm. unfold SpecFloat.shr_fexp, shr.
  assert (H0 : 0 <= shr_m (shr_record_of_loc m l))
    by (destruct l as [|[| |]]; exact Hm).
  destruct (fexp (Zdigits2 m + e) - e) as [|p|p]; simpl; try exact H0.
  apply (iter_pos_invariant shr_1 (fun x => 0 <= shr_m x));
    [apply shr_1_nonneg | exact H0].
Qed.

Lemma round_nearest_even_nonneg (m : Z) (l : location) :
  0 <= m -> 0 <= round_nearest_even m l.
Proof.
  intros Hm. unfold round_nearest_even.
  destruct l as [|[| |]]; try destruct (Z.even m); lia.
Qed.

(** Rounding a positive mantissa never gives NaN. *)
Lemma binary_round_not_nan (s : bool) (m : positive) (e : Z) :
  binary_round s m e <> S754_nan.
Proof.
  rewrite binary_round_finish. unfold truncated, finish.
  destruct (shl_align m e _) as [mz ez].
  pose proof (shr_fexp_nonneg (Zpos mz) ez loc_Exact ltac:(lia)) as H1.
  destruct (shr_fexp (Zpos mz) ez loc_Exact) as [mrs' e']. simpl in H1.
  pose proof (shr_fexp_nonneg
                (round_nearest_even (shr_m mrs') (loc_of_shr_record mrs'))
                e' loc_Exact
                (round_nearest_even_nonneg _ _ H1)) as H2.
  destruct (shr_fexp _ e' loc_Exact) as [mrs'' e'']. simpl in H2.
  destruct (shr_m mrs'') as [|p|p]; try discriminate.
  - destruct (e'' <=? emax - prec); discriminate.
  - lia.
Qed.

End Rounding.

Lemma SFeqb_refl (f : spec_float) : f <> S754_nan -> SFeqb f f = true.
Proof.
  unfold SFeqb, SFcompare. destruct f as [s|s| |s m e]; intros H.
  - reflexivity.
  - destruct s; reflexivity.
  - congruence.
  - destruct s; rewrite Z.compare_refl, Pos.compare_cont_refl; reflexivity.
Qed.

Lemma SFeqb_zero (s s' : bool) : SFeqb (S754_zero s) (S754_zero s') = true.
Proof. reflexivity. Qed.

(** ** Numeric equality *)

Lemma toNumber_normalizes (a : value) :
  normalizes a = true ->
  toNumber a =
  match underlying a with
  | VInt _ n | VUint _ n => Some (f64.of_Z n)
  | VFloat32 f => Some (f64.of_f32 f)
  | VFloat64 f => Some f
  | _ => None
  end.
Proof.
  unfold normalizes. destruct a; simpl; try discriminate.
  - destruct k; reflexivity.
  - destruct k; try discriminate; reflexivity.
  - reflexivity.
  - reflexivity.
  - unfold reflect.Kind_, reflect.kind_of_value. simpl.
    destruct (underlying a) as
      [ | | k n | k n | | | | | | | | | | | | ]; try discriminate.
    + destruct k; reflexivity.
    + destruct k; try discriminate; reflexivity.
    + reflexivity.
    + reflexivity.
Qed.

Lemma normalizes_not_nil (a : value) : normalizes a = true -> is_VNil a = false.
Proof. destruct a; try reflexivity. discriminate. Qed.

(** What [toNumber] returns for a value that denotes the number [x]: a
    zero for zero, the rounding of [x] to binary64 otherwise. *)
Lemma toNumber_number (a : value) (x : Z * Z) :
  normalizes a = true -> wellFormed a -> number a = Some x ->
  exists f,
    toNumber a = Some f
    /\ ((fst x = 0 /\ exists s, f = S754_zero s)
        \/ (fst x <> 0
            /\ f = binary_normalize f64.prec f64.emax (fst x) (snd x) false)).
Proof.
  intros Hn Hwf Hx. rewrite (toNumber_normalizes a Hn).
  unfold normalizes, wellFormed, number in *.
  destruct (underlying a) as
    [ | | k n | k n | f | f | | | | | | | | | | ]; try discriminate.
  - injection Hx as <-. eexists. split; [reflexivity|]. simpl.
    unfold f64.of_Z. destruct n; [left; eauto | right | right];
      split; (discriminate || reflexivity).
  - injection Hx as <-. eexists. split; [reflexivity|]. simpl.
    unfold f64.of_Z. destruct n; [left; eauto | right | right];
      split; (discriminate || reflexivity).
  - destruct f as [s|s| |s m e]; try discriminate; injection Hx as <-;
      eexists; (split; [reflexivity|]); simpl.
    + left. eauto.
    + right. destruct s; split; (discriminate || reflexivity).
  - destruct f as [s|s| |s m e]; try discriminate; injection Hx as <-;
      eexists; (split; [reflexivity|]); simpl.
    + left. eauto.
    + right. unfold f64.valid in Hwf. simpl in Hwf.
      destruct s; (split; [discriminate|]); simpl;
        symmetry; apply binary_round_canonical; exact Hwf.
Qed.

Lemma sameNumber_zero (x y : Z * Z) :
  sameNumber x y -> fst x = 0 -> fst y = 0.
Proof.
  unfold sameNumber. intros H Hx. rewrite Hx in H. simpl in H.
  symmetry in H. apply Z.mul_eq_0 in H. destruct H as [H|H]; [exact H|].
  pose proof (Z.pow_pos_nonneg 2 (snd y - Z.min (snd x) (snd y))
                ltac:(lia) ltac:(lia)). lia.
Qed.

Lemma sameNumber_sym (x y : Z * Z) : sameNumber x y -> sameNumber y x.
Proof. unfold sameNumber. rewrite (Z.min_comm (snd y)). auto. Qed.

(** The roundings of two pairs that stand for one number, not zero. *)
Lemma binary_normalize_sameNumber (x y : Z * Z) :
  sameNumber x y -> fst x <> 0 ->
  binary_normalize f64.prec f64.emax (fst x) (snd x) false
  = binary_normalize f64.prec f64.emax (fst y) (snd y) false
  /\ binary_normalize f64.prec f64.emax (fst x) (snd x) false <> S754_nan.
Proof.
  destruct x as [m1 e1], y as [m2 e2]. cbn [fst snd]. intros H Hm1.
  pose proof (Z.pow_pos_nonneg 2 (e1 - Z.min e1 e2) ltac:(lia) ltac:(lia))
    as Hp1.
  pose proof (Z.pow_pos_nonneg 2 (e2 - Z.min e1 e2) ltac:(lia) ltac:(lia))
    as Hp2.
  pose proof H as H'. unfold sameNumber in H'. cbn [fst snd] in H'.
  destruct m1 as [|p1|p1]; [congruence| |];
    destruct m2 as [|p2|p2]; try (exfalso; nia); simpl.
  - split; [|apply binary_round_not_nan].
    apply binary_round_sameNumber. exact H.
  - split; [|apply binary_round_not_nan].
    apply binary_round_sameNumber. unfold sameNumber. cbn [fst snd].
    rewrite <- !Pos2Z.opp_pos in H'. lia.
Qed.

Section EqualFacts.

Variable iface_eq : value -> value -> res bool.
Variable DeepEqual : value -> value -> bool.

Local Abbreviation isEqual := (isEqual iface_eq DeepEqual).

(** C8, as amended. Two values of the kinds int, int8 to int64, uint,
    uint8 to uint64, float32 and float64 (not uintptr), of any defined
    type over them, that denote one number are equal for [isEqual]: both
    are widened to [float64] by [toNumber] and the two [float64] are
    equal. *)
Theorem isEqual_same_number (a b : value) (x y : Z * Z) :
  normalizes a = true -> normalizes b = true ->
  wellFormed a -> wellFormed b ->
  number a = Some x -> number b = Some y ->
  sameNumber x y ->
  (exists aNum bNum,
     toNumber a = Some aNum /\ toNumber b = Some bNum
     /\ f64.eqb aNum bNum = true)
  /\ isEqual a b = Ok true.
Proof.
  intros Ha Hb Hwa Hwb Hx Hy Hxy.
  destruct (toNumber_number a x Ha Hwa Hx) as (fa & Hfa & Hca).
  destruct (toNumber_number b y Hb Hwb Hy) as (fb & Hfb & Hcb).
  assert (Heq : f64.eqb fa fb = true).
  { unfold f64.eqb.
    destruct Hca as [[Hx0 [s ->]] | [Hx0 ->]].
    - destruct Hcb as [[Hy0 [s' ->]] | [Hy0 _]]; [apply SFeqb_zero|].
      exfalso. apply Hy0. apply (sameNumber_zero x y); assumption.
    - destruct Hcb as [[Hy0 _] | [Hy0 ->]].
      + exfalso. apply Hx0.
        apply (sameNumber_zero y x); [apply sameNumber_sym|]; assumption.
      + destruct (binary_normalize_sameNumber x y Hxy Hx0) as [<- Hnan].
        apply SFeqb_refl. exact Hnan. }
  split.
  - exists fa, fb. auto.
  - unfold isEqual.
    rewrite (normalizes_not_nil a Ha), (normalizes_not_nil b Hb).
    simpl. rewrite Hfa, Hfb, Heq. reflexivity.
Qed.

End EqualFacts.

Lemma isEqual_same_number_witness :
  isEqual ifaceEq deepEqual (VInt KInt 3) (VFloat64 three) = Ok true
  /\ isEqual ifaceEq deepEqual (VInt KInt8 3) (VUint KUint64 3) = Ok true.
Proof.
  split.
  - apply (isEqual_same_number ifaceEq deepEqual (VInt KInt 3)
             (VFloat64 three) (3, 0) (6755399441055744, -51));
      reflexivity.
  - apply (isEqual_same_number ifaceEq deepEqual (VInt KInt8 3)
             (VUint KUint64 3) (3, 0) (3, 0)); reflexivity.
Defined.

(** C8, counterexample. [uintptr(3)] and [uint64(3)] are of integer kinds
    and denote the same number, and [isEqual] returns false on them:
    [toNumber] does not widen a [uintptr]. *)
Lemma isEqual_uintptr_differs :
  integerOrFloat (VUint KUintptr 3) = true
  /\ integerOrFloat (VUint KUint64 3) = true
  /\ number (VUint KUintptr 3) = number (VUint KUint64 3)
  /\ toNumber (VUint KUintptr 3) = None
  /\ isEqual ifaceEq deepEqual (VUint KUintptr 3) (VUint KUint64 3)
     = Ok false.
Proof. repeat split. Qed.

(** * Further properties *)

(** ** The logical operators *)

Section LogicFacts.

Variable iface_eq : value -> value -> res bool.
Variable DeepEqual : value -> value -> bool.

Local Abbreviation eval := (eval iface_eq DeepEqual).
Local Abbreviation And := (And iface_eq DeepEqual).
Local Abbreviation Or := (Or iface_eq DeepEqual).
Local Abbreviation Not := (Not iface_eq DeepEqual).

Lemma And_cons (q : query) (qs : list query) (v : value) :
  And (q :: qs) v =
  match eval q v with
  | Ok true => And qs v
  | Ok false => Ok false
  | Panic r => Panic r
  end.
Proof. simpl. destruct (eval q v) as [[|]|]; reflexivity. Qed.

Lemma Or_cons (q : query) (qs : list query) (v : value) :
  Or (q :: qs) v =
  match eval q v with
  | Ok true => Ok true
  | Ok false => Or qs v
  | Panic r => Panic r
  end.
Proof. simpl. destruct (eval q v) as [[|]|]; reflexivity. Qed.

Lemma Not_eq (q : query) (v : value) :
  Not q v =
  match eval q v with
  | Ok b => Ok (negb b)
  | Panic r => Panic r
  end.
Proof. reflexivity. Qed.

(** X1. Negating twice gives the query back, with its panics. *)
Theorem Not_Not (q : query) (v : value) :
  Not (QPred (Not q)) v = eval q v.
Proof.
  rewrite Not_eq. change (eval (QPred (Not q)) v) with (Not q v).
  rewrite Not_eq. destruct (eval q v) as [b|r]; [|reflexivity].
  rewrite negb_involutive. reflexivity.
Qed.

(** X2. The negation of a conjunction is the disjunction of the negations:
    the same result and the same panic, since both stop at the first query
    that is false. *)
Theorem Not_And (qs : list query) (v : value) :
  Not (QPred (And qs)) v = Or (map (fun q => QPred (Not q)) qs) v.
Proof.
  induction qs as [|q qs IH]; [reflexivity|].
  rewrite Not_eq.
  change (eval (QPred (And (q :: qs))) v) with (And (q :: qs) v).
  rewrite And_cons. simpl map. rewrite Or_cons.
  change (eval (QPred (Not q)) v) with (Not q v). rewrite (Not_eq q).
  destruct (eval q v) as [[|]|r]; try reflexivity.
  rewrite <- IH, Not_eq. reflexivity.
Qed.

(** X3. The negation of a disjunction is the conjunction of the
    negations. *)
Theorem Not_Or (qs : list query) (v : value) :
  Not (QPred (Or qs)) v = And (map (fun q => QPred (Not q)) qs) v.
Proof.
  induction qs as [|q qs IH]; [reflexivity|].
  rewrite Not_eq.
  change (eval (QPred (Or (q :: qs))) v) with (Or (q :: qs) v).
  rewrite Or_cons. simpl map. rewrite And_cons.
  change (eval (QPred (Not q)) v) with (Not q v). rewrite (Not_eq q).
  destruct (eval q v) as [[|]|r]; try reflexivity.
  rewrite <- IH, Not_eq. reflexivity.
Qed.

(** X4. A conjunction is true exactly when every query is true on the
    value, and false exactly when some query is false after all the queries
    before it were true: the queries after it are not evaluated. *)
Theorem And_short_circuit (qs : list query) (v : value) :
  (And qs v = Ok true <-> Forall (fun q => eval q v = Ok true) qs)
  /\ (And qs v = Ok false <->
      exists pre q post,
        qs = (pre ++ q :: post)%list
        /\ Forall (fun q' => eval q' v = Ok true) pre
        /\ eval q v = Ok false).
Proof.
  induction qs as [|q qs [IHt IHf]].
  - split; split.
    + constructor.
    + reflexivity.
    + discriminate.
    + intros (pre & q & post & Hq & _). destruct pre; discriminate.
  - rewrite And_cons. split; split.
    + intros H. destruct (eval q v) as [[|]|] eqn:E; try discriminate.
      constructor; [exact E | apply IHt, H].
    + intros H. inversion H as [|? ? H1 H2]; subst. rewrite H1.
      apply IHt, H2.
    + intros H. destruct (eval q v) as [[|]|] eqn:E; try discriminate.
      * apply IHf in H. destruct H as (pre & q' & post & -> & Hpre & Hq').
        exists (q :: pre), q', post. repeat split; auto.
      * exists [], q, qs. repeat split; auto.
    + intros (pre & q' & post & Hq & Hpre & Hq').
      destruct pre as [|p pre]; simpl in Hq; injection Hq as -> ->.
      * rewrite Hq'. reflexivity.
      * inversion Hpre as [|? ? H1 H2]; subst. rewrite H1.
        apply IHf. exists pre, q', post. auto.
Qed.

(** X5. A disjunction is false exactly when every query is false on the
    value, and true exactly when some query is true after all the queries
    before it were false. *)
Theorem Or_short_circuit (qs : list query) (v : value) :
  (Or qs v = Ok false <-> Forall (fun q => eval q v = Ok false) qs)
  /\ (Or qs v = Ok true <->
      exists pre q post,
        qs = (pre ++ q :: post)%list
        /\ Forall (fun q' => eval q' v = Ok false) pre
        /\ eval q v = Ok true).
Proof.
  induction qs as [|q qs [IHf IHt]].
  - split; split.
    + constructor.
    + reflexivity.
    + discriminate.
    + intros (pre & q & post & Hq & _). destruct pre; discriminate.
  - rewrite Or_cons. split; split.
    + intros H. destruct (eval q v) as [[|]|] eqn:E; try discriminate.
      constructor; [exact E | apply IHf, H].
    + intros H. inversion H as [|? ? H1 H2]; subst. rewrite H1.
      apply IHf, H2.
    + intros H. destruct (eval q v) as [[|]|] eqn:E; try discriminate.
      * exists [], q, qs. repeat split; auto.
      * apply IHt in H. destruct H as (pre & q' & post & -> & Hpre & Hq').
        exists (q :: pre), q', post. repeat split; auto.
    + intros (pre & q' & post & Hq & Hpre & Hq').
      destruct pre as [|p pre]; simpl in Hq; injection Hq as -> ->.
      * rewrite Hq'. reflexivity.
      * inversion Hpre as [|? ? H1 H2]; subst. rewrite H1.
        apply IHt. exists pre, q', post. auto.
Qed.

(** X6. A conjunction nested in a conjunction can be flattened, and so can
    a disjunction nested in a disjunction. *)
Theorem And_Or_flatten (xs ys : list query) (v : value) :
  And (QPred (And xs) :: ys) v = And (xs ++ ys) v
  /\ Or (QPred (Or xs) :: ys) v = Or (xs ++ ys) v.
Proof.
  split.
  - rewrite And_cons. simpl eval.
    induction xs as [|x xs IH]; [reflexivity|].
    simpl app. rewrite !And_cons.
    destruct (eval x v) as [[|]|]; auto.
  - rewrite Or_cons. simpl eval.
    induction xs as [|x xs IH]; [reflexivity|].
    simpl app. rewrite !Or_cons.
    destruct (eval x v) as [[|]|]; auto.
Qed.

End LogicFacts.

(** ** Ordering, continued *)

Lemma SFcompare_antisym (x y : spec_float) :
  SFcompare y x = option_map CompOpp (SFcompare x y).
Proof.
  destruct x as [s|s| |s m e], y as [s'|s'| |s' m' e']; simpl;
    try reflexivity;
    try (destruct s; reflexivity);
    try (destruct s'; reflexivity);
    try (destruct s, s'; reflexivity).
  assert (Hc : Pos.compare_cont Datatypes.Eq m' m
               = CompOpp (Pos.compare_cont Datatypes.Eq m m'))
    by (rewrite (Pos.compare_cont_antisym m m' Datatypes.Eq); reflexivity).
  destruct s, s'; simpl; try reflexivity;
    rewrite (Z.compare_antisym e e'), Hc;
    destruct (e ?= e'); simpl; try reflexivity;
    destruct (Pos.compare_cont Datatypes.Eq m m'); reflexivity.
Qed.

Lemma float_order_antisym (x y : spec_float) :
  (if f64.ltb x y then -1 else if f64.gtb x y then 1 else 0)
  = - (if f64.ltb y x then -1 else if f64.gtb y x then 1 else 0).
Proof.
  unfold f64.ltb, f64.gtb, SFltb. rewrite (SFcompare_antisym x y).
  destruct (SFcompare x y) as [[| |]|]; reflexivity.
Qed.

Lemma fastPath_opp (a b : value) :
  fastPath b a = option_map Z.opp (fastPath a b).
Proof.
  destruct a as [ | |k n|k n| |f|s|t| | | | | | | | ],
           b as [ | |k' n'|k' n'| |f'|s'|t'| | | | | | | | ];
    try reflexivity;
    try (destruct k; reflexivity); try (destruct k'; reflexivity); simpl.
  - destruct k, k'; try reflexivity. simpl. f_equal.
    destruct (Z.ltb_spec n' n), (Z.ltb_spec n n'),
      (Z.gtb_spec n' n), (Z.gtb_spec n n'); lia.
  - f_equal. apply float_order_antisym.
  - f_equal. unfold String.ltb. rewrite (String.compare_antisym s' s).
    destruct (String.compare s s'); reflexivity.
  - f_equal.
    destruct (Z.ltb_spec t' t), (Z.ltb_spec t t'); lia.
Qed.

Lemma compareValues_nonnil (a b : value) :
  is_VNil a = false -> is_VNil b = false ->
  compareValues a b =
  match fastPath a b with
  | Some r => r
  | None =>
      match toNumber a, toNumber b with
      | Some aNum, Some bNum =>
          if f64.ltb aNum bNum then -1
          else if f64.gtb aNum bNum then 1 else 0
      | _, _ => -1
      end
  end.
Proof.
  intros Ha Hb. destruct a; try discriminate; destruct b; try discriminate;
    reflexivity.
Qed.

(** X8. On two values that can be ordered (one is nil, or both are of one
    type of the fast path, or both are numbers) the order is antisymmetric:
    exchanging the operands negates the result. *)
Theorem compareValues_antisym (a b : value) :
  orderable a b = true -> compareValues a b = - compareValues b a.
Proof.
  intros H.
  destruct (is_VNil a) eqn:Ha.
  { destruct a; try discriminate. destruct b; reflexivity. }
  destruct (is_VNil b) eqn:Hb.
  { destruct b; try discriminate. destruct a; try discriminate; reflexivity. }
  rewrite (compareValues_nonnil a b Ha Hb), (compareValues_nonnil b a Hb Ha).
  assert (Ho : match fastPath a b with
               | Some _ => true
               | None => match toNumber a, toNumber b with
                         | Some _, Some _ => true
                         | _, _ => false
                         end
               end = true).
  { unfold orderable in H.
    destruct a; try discriminate; destruct b; try discriminate; exact H. }
  rewrite (fastPath_opp a b).
  destruct (fastPath a b) as [r|]; simpl; [lia|].
  destruct (toNumber a) as [x|], (toNumber b) as [y|]; try discriminate.
  apply float_order_antisym.
Qed.

Lemma compareValues_antisym_witness :
  compareValues (VInt KInt8 2) (VFloat64 three)
  = - compareValues (VFloat64 three) (VInt KInt8 2).
Proof. apply compareValues_antisym. reflexivity. Defined.

(** ** Integers as [float64] *)

Lemma digits2_pos_bounds (p : positive) :
  2 ^ (Zpos (digits2_pos p) - 1) <= Zpos p < 2 ^ Zpos (digits2_pos p).
Proof.
  induction p as [p IH|p IH|]; simpl digits2_pos.
  - rewrite Pos2Z.inj_succ, (Pos2Z.inj_xI p).
    replace (Z.succ (Zpos (digits2_pos p)) - 1)
      with (Z.succ (Zpos (digits2_pos p) - 1)) by lia.
    rewrite !Z.pow_succ_r by lia.
    generalize dependent (2 ^ (Zpos (digits2_pos p) - 1)).
    generalize dependent (2 ^ Zpos (digits2_pos p)). intros; lia.
  - rewrite Pos2Z.inj_succ, (Pos2Z.inj_xO p).
    replace (Z.succ (Zpos (digits2_pos p)) - 1)
      with (Z.succ (Zpos (digits2_pos p) - 1)) by lia.
    rewrite !Z.pow_succ_r by lia.
    generalize dependent (2 ^ (Zpos (digits2_pos p) - 1)).
    generalize dependent (2 ^ Zpos (digits2_pos p)). intros; lia.
  - simpl. lia.
Qed.

Lemma digits2_pos_shiftl_nat (p : positive) (k : nat) :
  Zpos (digits2_pos (Pos.shiftl_nat p k)) = Zpos (digits2_pos p) + Z.of_nat k.
Proof.
  induction k as [|k IH].
  - simpl. lia.
  - change (Pos.shiftl_nat p (S k)) with (xO (Pos.shiftl_nat p k)).
    simpl digits2_pos. rewrite Pos2Z.inj_succ, IH. lia.
Qed.

(** The number of binary digits that an integer below [2 ^ 53] lacks to
    fill the mantissa. *)
Lemma digits2_pos_small (p : positive) :
  Zpos p < 2 ^ 53 -> Zpos (digits2_pos p) <= 53.
Proof.
  intros H. pose proof (digits2_pos_bounds p) as [Hlo _].
  destruct (Z.le_gt_cases (Zpos (digits2_pos p)) 53) as [Hd|Hd]; [exact Hd|].
  exfalso.
  assert (2 ^ 53 <= 2 ^ (Zpos (digits2_pos p) - 1))
    by (apply Z.pow_le_mono_r; lia).
  lia.
Qed.

(** An integer below [2 ^ 53] in absolute value is converted exactly: the
    mantissa is the integer, shifted to 53 digits. *)
Lemma binary_round_small (s : bool) (p : positive) :
  Zpos p < 2 ^ 53 ->
  let k := Z.to_nat (53 - Zpos (digits2_pos p)) in
  binary_round f64.prec f64.emax s p 0
  = S754_finite s (Pos.shiftl_nat p k) (- Z.of_nat k).
Proof.
  intros Hp k. pose proof (digits2_pos_small p Hp) as Hd.
  rewrite <- (binary_round_shift f64.prec f64.emax s p 0 k).
  change (0 - Z.of_nat k) with (- Z.of_nat k).
  apply binary_round_canonical.
  unfold bounded, canonical_mantissa, fexp, emin, f64.prec, f64.emax.
  rewrite digits2_pos_shiftl_nat.
  apply andb_true_iff. split; [apply Z.eqb_eq | apply Z.leb_le]; lia.
Qed.

Lemma shiftl_nat_compare (p q : positive) (k : nat) :
  (Pos.shiftl_nat p k ?= Pos.shiftl_nat q k)%positive = (p ?= q)%positive.
Proof.
  induction k as [|k IH]; [reflexivity|].
  change (Pos.shiftl_nat p (S k)) with (xO (Pos.shiftl_nat p k)).
  change (Pos.shiftl_nat q (S k)) with (xO (Pos.shiftl_nat q k)).
  exact IH.
Qed.

(** The order of the mantissas and exponents of two converted integers is
    the order of the integers. *)
Lemma small_compare (p q : positive) :
  Zpos p < 2 ^ 53 -> Zpos q < 2 ^ 53 ->
  let kp := Z.to_nat (53 - Zpos (digits2_pos p)) in
  let kq := Z.to_nat (53 - Zpos (digits2_pos q)) in
  match - Z.of_nat kp ?= - Z.of_nat kq with
  | Datatypes.Lt => Datatypes.Lt
  | Datatypes.Gt => Datatypes.Gt
  | Datatypes.Eq =>
      Pos.compare_cont Datatypes.Eq (Pos.shiftl_nat p kp) (Pos.shiftl_nat q kq)
  end = (p ?= q)%positive.
Proof.
  intros Hp Hq kp kq.
  pose proof (digits2_pos_small p Hp) as Hdp.
  pose proof (digits2_pos_small q Hq) as Hdq.
  pose proof (digits2_pos_bounds p) as [Hp1 Hp2].
  pose proof (digits2_pos_bounds q) as [Hq1 Hq2].
  destruct (Z.compare_spec (- Z.of_nat kp) (- Z.of_nat kq)) as [He|He|He].
  - assert (Hk : kp = kq) by lia. rewrite Hk.
    change (Pos.compare_cont Datatypes.Eq ?x ?y) with (Pos.compare x y).
    apply shiftl_nat_compare.
  - symmetry. apply Pos.compare_lt_iff.
    assert (Hd : Zpos (digits2_pos p) <= Zpos (digits2_pos q) - 1)
      by (subst kp kq; lia).
    assert (2 ^ Zpos (digits2_pos p) <= 2 ^ (Zpos (digits2_pos q) - 1))
      by (apply Z.pow_le_mono_r; lia).
    lia.
  - symmetry. apply Pos.compare_gt_iff.
    assert (Hd : Zpos (digits2_pos q) <= Zpos (digits2_pos p) - 1)
      by (subst kp kq; lia).
    assert (2 ^ Zpos (digits2_pos q) <= 2 ^ (Zpos (digits2_pos p) - 1))
      by (apply Z.pow_le_mono_r; lia).
    lia.
Qed.

(** The comparison of two integers below [2 ^ 53] in absolute value, once
    converted to [float64], is the comparison of the integers. *)
Lemma of_Z_compare (a b : Z) :
  Z.abs a < 2 ^ 53 -> Z.abs b < 2 ^ 53 ->
  SFcompare (f64.of_Z a) (f64.of_Z b) = Some (a ?= b).
Proof.
  intros Ha Hb. unfold f64.of_Z, binary_normalize.
  destruct a as [|p|p], b as [|q|q]; try reflexivity;
    rewrite ?(binary_round_small _ p) by lia;
    rewrite ?(binary_round_small _ q) by lia;
    cbv zeta; try reflexivity.
  - simpl SFcompare. f_equal. apply small_compare; lia.
  - simpl SFcompare. f_equal. simpl Z.compare.
    rewrite <- (small_compare p q) by lia. cbv zeta.
    destruct (- Z.of_nat _ ?= - Z.of_nat _); reflexivity.
Qed.

Lemma toNumber_intValue (a : value) (n : Z) :
  intValue a = Some n ->
  toNumber a = Some (f64.of_Z n) /\ is_VNil a = false.
Proof.
  intros H.
  assert (Hn : normalizes a = true).
  { unfold intValue in H. unfold normalizes.
    destruct (underlying a) as [ | |k ?|k ?| | | | | | | | | | | | ];
      try discriminate; [reflexivity|].
    destruct k; try discriminate; reflexivity. }
  split; [|apply normalizes_not_nil; exact Hn].
  rewrite (toNumber_normalizes a Hn). unfold intValue in H.
  destruct (underlying a) as [ | |k ?|k ?| | | | | | | | | | | | ];
    try discriminate.
  - congruence.
  - destruct k; try discriminate; congruence.
Qed.

Lemma fastPath_intValue (a b : value) (na nb r : Z) :
  intValue a = Some na -> intValue b = Some nb ->
  fastPath a b = Some r -> r = order_of (na ?= nb).
Proof.
  intros Ha Hb Hf.
  destruct a as [ | |k n|k n| | | | | | | | | | | | ]; try discriminate;
    destruct b as [ | |k' n'|k' n'| | | | | | | | | | | | ];
    try discriminate; try (destruct k; discriminate).
  destruct k, k'; try discriminate.
  simpl in Ha, Hb, Hf. injection Ha as <-. injection Hb as <-.
  injection Hf as <-.
  destruct (Z.compare_spec n n'), (Z.ltb_spec n n'), (Z.gtb_spec n n');
    simpl; lia.
Qed.

Lemma float_order_of_Z (na nb : Z) :
  Z.abs na < 2 ^ 53 -> Z.abs nb < 2 ^ 53 ->
  (if f64.ltb (f64.of_Z na) (f64.of_Z nb) then -1
   else if f64.gtb (f64.of_Z na) (f64.of_Z nb) then 1 else 0)
  = order_of (na ?= nb).
Proof.
  intros Ha Hb. unfold f64.ltb, f64.gtb, SFltb.
  rewrite (of_Z_compare na nb Ha Hb), (of_Z_compare nb na Hb Ha).
  rewrite (Z.compare_antisym na nb).
  destruct (na ?= nb); reflexivity.
Qed.

(** X9. Two integers of any widths and signedness (not uintptr) below
    [2 ^ 53] in absolute value are ordered as integers: [compareValues]
    reports their order, and [Gt], [Gte], [Lt] and [Lte] decide it. *)
Theorem compareValues_int_exact (a b : value) (na nb : Z) :
  intValue a = Some na -> intValue b = Some nb ->
  Z.abs na < 2 ^ 53 -> Z.abs nb < 2 ^ 53 ->
  compareValues a b = order_of (na ?= nb)
  /\ Gt b a = Ok (na >? nb)
  /\ Gte b a = Ok (na >=? nb)
  /\ Lt b a = Ok (na <? nb)
  /\ Lte b a = Ok (na <=? nb).
Proof.
  intros Ha Hb Hna Hnb.
  destruct (toNumber_intValue a na Ha) as [Hta Hnila].
  destruct (toNumber_intValue b nb Hb) as [Htb Hnilb].
  assert (Hc : compareValues a b = order_of (na ?= nb)).
  { rewrite (compareValues_nonnil a b Hnila Hnilb).
    destruct (fastPath a b) as [r|] eqn:Hf.
    - apply (fastPath_intValue a b na nb r Ha Hb Hf).
    - rewrite Hta, Htb. apply float_order_of_Z; assumption. }
  unfold Gt, Gte, Lt, Lte. rewrite Hc.
  destruct (Z.compare_spec na nb); simpl;
    repeat split; f_equal; symmetry;
    first [ apply Z.gtb_ltb | idtac ];
    try (rewrite ?Z.gtb_ltb, ?Z.geb_leb;
         first [ apply Z.ltb_lt | apply Z.ltb_ge | apply Z.leb_le
               | apply Z.leb_gt ]; lia).
Qed.

Lemma compareValues_int_exact_witness :
  compareValues (VInt KInt8 (-3)) (VUint KUint64 7) = -1
  /\ Gt (VUint KUint64 7) (VInt KInt8 (-3)) = Ok false
  /\ Gte (VUint KUint64 7) (VInt KInt8 (-3)) = Ok false
  /\ Lt (VUint KUint64 7) (VInt KInt8 (-3)) = Ok true
  /\ Lte (VUint KUint64 7) (VInt KInt8 (-3)) = Ok true.
Proof.
  apply (compareValues_int_exact (VInt KInt8 (-3)) (VUint KUint64 7) (-3) 7);
    reflexivity.
Defined.

Section IntEqualFacts.

Variable iface_eq : value -> value -> res bool.
Variable DeepEqual : value -> value -> bool.

Local Abbreviation isEqual := (isEqual iface_eq DeepEqual).
Local Abbreviation Eq := (Eq iface_eq DeepEqual).

(** X10. Two integers of any widths and signedness (not uintptr) below
    [2 ^ 53] in absolute value are equal for [isEqual], and for [Eq],
    exactly when they are the same integer. *)
Theorem isEqual_int_exact (a b : value) (na nb : Z) :
  intValue a = Some na -> intValue b = Some nb ->
  Z.abs na < 2 ^ 53 -> Z.abs nb < 2 ^ 53 ->
  isEqual a b = Ok (na =? nb) /\ Eq b a = Ok (na =? nb).
Proof.
  intros Ha Hb Hna Hnb.
  destruct (toNumber_intValue a na Ha) as [Hta Hnila].
  destruct (toNumber_intValue b nb Hb) as [Htb Hnilb].
  assert (H : isEqual a b = Ok (na =? nb)).
  { unfold isEqual. rewrite Hnila, Hnilb. simpl. rewrite Hta, Htb.
    unfold f64.eqb, SFeqb. rewrite (of_Z_compare na nb Hna Hnb).
    f_equal. destruct (Z.compare_spec na nb), (Z.eqb_spec na nb);
      try reflexivity; lia. }
  split; [exact H | exact H].
Qed.

End IntEqualFacts.

Lemma isEqual_int_exact_witness :
  isEqual ifaceEq deepEqual (VInt KInt16 300) (VUint KUint8 44) = Ok false
  /\ Eq ifaceEq deepEqual (VUint KUint8 44) (VInt KInt16 300) = Ok false.
Proof.
  apply (isEqual_int_exact ifaceEq deepEqual (VInt KInt16 300)
           (VUint KUint8 44) 300 44); reflexivity.
Defined.

(** X11. The type switch and the switch on the kind of [toNumber] agree:
    a value of a defined type is converted like the value of the
    predeclared type under it. *)
Theorem toNumber_underlying (a : value) :
  toNumber a = toNumber (underlying a).
Proof.
  induction a as [ | |k n|k n| | | | | | | | | | | |name a IH];
    try reflexivity.
  simpl underlying. rewrite <- IH. clear IH.
  unfold toNumber at 1.
  change (reflect.Kind_ (reflect.ValueOf (VNamed name a)))
    with (reflect.kind_of_value a).
  change (underlying (VNamed name a)) with (underlying a).
  destruct a as [ | |k n|k n| | | | | | | | | | | |name' a'];
    try reflexivity.
  - destruct k; reflexivity.
  - destruct k; reflexivity.
Qed.

(** ** The two filters, continued *)

Lemma subseq_refl {A : Type} (l : list A) : subseq l l.
Proof. induction l; constructor; assumption. Qed.

Lemma subseq_firstn {A : Type} (n : nat) (l : list A) : subseq (firstn n l) l.
Proof.
  revert n. induction l as [|x l IH]; intros [|n]; simpl;
    try constructor; auto using subseq_nil_l.
Qed.

Lemma subseq_skipn {A : Type} (s : list A) (m : nat) (l : list A) :
  subseq s (skipn m l) -> subseq s l.
Proof.
  revert l. induction m as [|m IH]; intros l H; [exact H|].
  destruct l as [|x l]; [exact H|]. constructor. apply IH. exact H.
Qed.

Lemma GoInt_add_cases (a b : Z) :
  GoInt.in_range a -> GoInt.in_range b ->
  GoInt.add a b = a + b
  \/ (GoInt.max_int < a + b /\ GoInt.add a b < 0)
  \/ (a + b < GoInt.min_int /\ 0 <= GoInt.add a b).
Proof.
  unfold GoInt.in_range, GoInt.add, GoInt.wrap, GoInt.min_int, GoInt.max_int.
  intros Ha Hb.
  change (2 ^ 63) with 9223372036854775808 in *.
  change (2 ^ 64) with 18446744073709551616 in *.
  Z.div_mod_to_equations. lia.
Qed.

Section FilterMore.

Variable iface_eq : value -> value -> res bool.
Variable DeepEqual : value -> value -> bool.

Local Abbreviation eval := (eval iface_eq DeepEqual).
Local Abbreviation Filter := (Filter iface_eq DeepEqual).
Local Abbreviation Filter_loop := (Filter_loop iface_eq DeepEqual).
Local Abbreviation FilterC := (FilterC iface_eq DeepEqual).
Local Abbreviation FilterC_loop := (FilterC_loop iface_eq DeepEqual).
Local Abbreviation matchb := (matchb iface_eq DeepEqual).
Local Abbreviation faultb := (faultb iface_eq DeepEqual).
Local Abbreviation faultOf := (faultOf iface_eq DeepEqual).
Local Abbreviation nofault q l := (Forall (fun x => faultb q x = false) l).

Lemma Filter_loop_extends (q : query) (skip limit : Z) (data : list value) :
  forall count result,
    exists s,
      fst (Filter_loop q skip limit data count result) = (result ++ s)%list
      /\ subseq s data.
Proof.
  induction data as [|x data IH]; intros count result.
  - exists []. split; [simpl; rewrite app_nil_r; reflexivity | constructor].
  - simpl. destruct (eval q x) as [[|]|r].
    + destruct (count <? skip).
      * destruct (IH (GoInt.add count 1) result) as (s & Hs & Hsub).
        exists s. split; [exact Hs | constructor; exact Hsub].
      * destruct ((limit >? 0) && (len (result ++ [x]) >=? limit)).
        -- exists [x]. split; [reflexivity|].
           constructor. apply subseq_nil_l.
        -- destruct (IH count (result ++ [x])%list) as (s & Hs & Hsub).
           exists (x :: s). split.
           ++ rewrite Hs, <- app_assoc. reflexivity.
           ++ constructor. exact Hsub.
    + destruct (IH count result) as (s & Hs & Hsub).
      exists s. split; [exact Hs | constructor; exact Hsub].
    + exists []. split; [simpl; rewrite app_nil_r; reflexivity|].
      apply subseq_nil_l.
Qed.

(** X12. Whatever the query, the bounds and the faults, what [Filter]
    returns is some of the records, in the order of the input. *)
Theorem Filter_subseq (data : list value) (q : query) (skip limit : Z) :
  subseq (fst (Filter data q skip limit)) data.
Proof.
  unfold Filter. destruct (is_nil_query q).
  - destruct ((skip =? 0) && ((limit =? 0) || (limit >=? len data))).
    + apply subseq_refl.
    + unfold slice.
      destruct ((0 <=? Z.min skip (len data))
                && (Z.min skip (len data)
                    <=? Z.min (GoInt.add skip limit) (len data))
                && (Z.min (GoInt.add skip limit) (len data) <=? len data)).
      * simpl. eapply subseq_skipn. apply subseq_firstn.
      * apply subseq_nil_l.
  - destruct (Filter_loop_extends q skip limit data 0 []) as (s & Hs & Hsub).
    rewrite Hs. exact Hsub.
Qed.

Lemma Filter_loop_bound (q : query) (skip limit : Z) (data : list value) :
  0 < limit ->
  forall count result,
    len result < limit ->
    len (fst (Filter_loop q skip limit data count result)) <= limit.
Proof.
  intros Hpos. induction data as [|x data IH]; intros count result Hlen.
  - simpl. lia.
  - simpl. destruct (eval q x) as [[|]|r].
    + destruct (count <? skip); [apply IH; exact Hlen|].
      replace (limit >? 0) with true
        by (symmetry; rewrite Z.gtb_ltb; apply Z.ltb_lt; lia).
      simpl andb.
      assert (Hl : len (result ++ [x]) = len result + 1)
        by (rewrite len_app; reflexivity).
      destruct (Z.geb_spec (len (result ++ [x])) limit) as [Hge|Hlt].
      * simpl. lia.
      * apply IH. lia.
    + apply IH. exact Hlen.
    + simpl. lia.
Qed.

(** X13. With a positive limit, [Filter] never returns more than [limit]
    records, for the nil query as for any other. *)
Theorem Filter_at_most_limit (data : list value) (q : query) (skip limit : Z) :
  0 < limit -> GoInt.in_range skip -> GoInt.in_range limit ->
  len (fst (Filter data q skip limit)) <= limit.
Proof.
  intros Hpos Hskip Hlimit. unfold Filter. destruct (is_nil_query q).
  - pose proof (len_nonneg data) as Hnn.
    destruct ((skip =? 0) && ((limit =? 0) || (limit >=? len data))) eqn:E.
    + apply andb_true_iff in E. destruct E as [_ E].
      apply orb_true_iff in E. destruct E as [E|E].
      * apply Z.eqb_eq in E. lia.
      * apply Z.geb_le in E. exact E.
    + unfold slice.
      destruct ((0 <=? Z.min skip (len data))
                && (Z.min skip (len data)
                    <=? Z.min (GoInt.add skip limit) (len data))
                && (Z.min (GoInt.add skip limit) (len data) <=? len data))
        eqn:Es; [|simpl; unfold len; simpl; lia].
      apply andb_true_iff in Es. destruct Es as [Es _].
      apply andb_true_iff in Es. destruct Es as [Hlo Hhi].
      apply Z.leb_le in Hlo, Hhi. simpl fst.
      unfold len at 1. rewrite length_firstn.
      destruct (GoInt_add_cases skip limit Hskip Hlimit)
        as [Ha | [[_ Ha] | [Ha _]]];
        unfold GoInt.in_range, GoInt.min_int, GoInt.max_int in *; lia.
  - apply Filter_loop_bound; [exact Hpos|]. unfold len. simpl. lia.
Qed.

Lemma paginate_0_0 {A : Type} (l : list A) : paginate 0 0 l = l.
Proof. reflexivity. Qed.

Lemma nofault_faultOf (q : query) (l : list value) :
  nofault q l -> flat_map (faultOf q) l = [].
Proof.
  induction 1 as [|x l Hx _ IH]; [reflexivity|].
  simpl. rewrite IH. unfold faultOf, faultb in *.
  destruct (eval q x); [reflexivity | discriminate].
Qed.

Lemma nofault_app_l (q : query) (l l' : list value) :
  nofault q (l ++ l') -> nofault q l.
Proof. intros H. apply Forall_app in H. apply H. Qed.

(** X14. Pagination does not interfere with matching: when no evaluation
    panics, [Filter] with [skip] and [limit] returns the page of what it
    returns without them. *)
Theorem Filter_page_of_all (data : list value) (q : query) (skip limit : Z) :
  is_nil_query q = false -> GoInt.in_range skip -> nofault q data ->
  Filter data q skip limit
  = (paginate skip limit (fst (Filter data q 0 0)), None).
Proof.
  intros Hq Hskip Hdata.
  rewrite (Filter_paginate iface_eq DeepEqual data q skip limit Hq Hskip Hdata).
  rewrite (Filter_paginate iface_eq DeepEqual data q 0 0 Hq);
    [reflexivity | | exact Hdata].
  unfold GoInt.in_range, GoInt.min_int, GoInt.max_int. lia.
Qed.

Lemma FilterC_outputs_paginate (input : list value) (q : query)
  (skip limit : Z) :
  len input <= GoInt.max_int -> GoInt.in_range limit ->
  fst (FilterC input q skip limit)
  = paginate skip limit (filter (matchb q) input).
Proof.
  intros Hlen Hlimit. unfold FilterC, paginate. cbn [fst].
  destruct (Z.gtb_spec limit 0) as [Hpos|Hneg].
  - rewrite (FilterC_loop_bounded iface_eq DeepEqual q skip limit input
               Hpos Hlimit 0 0) by lia.
    rewrite !Z.sub_0_r. reflexivity.
  - destruct (FilterC_loop_unbounded iface_eq DeepEqual q skip limit input
                Hneg 0 0 ltac:(lia) ltac:(lia)) as [Ho _].
    cbv zeta in Ho. rewrite Ho, Z.sub_0_r. reflexivity.
Qed.

Lemma FilterC_no_errors (input : list value) (q : query) (skip limit : Z) :
  nofault q input -> snd (FilterC input q skip limit) = [].
Proof.
  intros Hin. unfold FilterC. cbn [snd].
  destruct (FilterC_loop_errors iface_eq DeepEqual q skip limit input 0 0)
    as (consumed & rest & Hsplit & Herr).
  rewrite Herr. apply nofault_faultOf.
  apply (nofault_app_l q consumed rest). rewrite <- Hsplit. exact Hin.
Qed.

(** X15. When no evaluation panics, the streaming filter sends what the
    bulk filter returns for the same non-nil query, skip and limit, and
    neither reports an error. *)
Theorem FilterC_agrees_with_Filter (input : list value) (q : query)
  (skip limit : Z) :
  is_nil_query q = false ->
  GoInt.in_range skip -> GoInt.in_range limit ->
  len input <= GoInt.max_int ->
  nofault q input ->
  fst (FilterC input q skip limit) = fst (Filter input q skip limit)
  /\ snd (FilterC input q skip limit) = []
  /\ snd (Filter input q skip limit) = None.
Proof.
  intros Hq Hskip Hlimit Hlen Hin.
  rewrite (Filter_paginate iface_eq DeepEqual input q skip limit Hq Hskip Hin).
  repeat split.
  - apply FilterC_outputs_paginate; assumption.
  - apply FilterC_no_errors. exact Hin.
Qed.

(** X16. In streaming mode the nil query is evaluated like any other
    query: only the nullish items are sent, and no error is reported;
    the bulk filter returns every record for the nil query. *)
Theorem FilterC_nil_query (input : list value) (skip limit : Z) :
  GoInt.in_range limit -> len input <= GoInt.max_int ->
  FilterC input (QVal VNil) skip limit
  = (paginate skip limit (filter isNil input), [])
  /\ Filter input (QVal VNil) 0 0 = (input, None).
Proof.
  intros Hlimit Hlen. split; [|reflexivity].
  assert (Hnf : nofault (QVal VNil) input)
    by (apply Forall_forall; intros x _; reflexivity).
  rewrite (surjective_pairing (FilterC input (QVal VNil) skip limit)).
  f_equal.
  - rewrite (FilterC_outputs_paginate input (QVal VNil) skip limit Hlen Hlimit).
    f_equal. apply filter_ext. intros x. unfold matchb. simpl.
    destruct (isNil x); reflexivity.
  - apply FilterC_no_errors. exact Hnf.
Qed.

Lemma Filter_loop_skip_nonpos (q : query) (skip limit : Z)
  (data : list value) :
  skip <= 0 ->
  forall result,
    Filter_loop q skip limit data 0 result
    = Filter_loop q 0 limit data 0 result.
Proof.
  intros Hs. induction data as [|x data IH]; intros result; [reflexivity|].
  simpl. replace (0 <? skip) with false
    by (symmetry; apply Z.ltb_ge; exact Hs).
  destruct (eval q x) as [[|]|r]; try reflexivity.
  - destruct ((limit >? 0) && (len (result ++ [x]) >=? limit));
      [reflexivity | apply IH].
  - apply IH.
Qed.

Lemma Filter_loop_limit_nonpos (q : query) (skip limit : Z)
  (data : list value) :
  limit <= 0 ->
  forall count result,
    Filter_loop q skip limit data count result
    = Filter_loop q skip 0 data count result.
Proof.
  intros Hl. induction data as [|x data IH]; intros count result;
    [reflexivity|].
  simpl. replace (limit >? 0) with false
    by (symmetry; rewrite Z.gtb_ltb; apply Z.ltb_ge; exact Hl).
  destruct (eval q x) as [[|]|r]; try reflexivity.
  - destruct (count <? skip); simpl; apply IH.
  - apply IH.
Qed.

(** X17. For a non-nil query a negative skip counts as no skip and a
    negative limit as no limit; for the nil query a negative skip makes
    [Filter] return no record and an error, the slice bounds being out of
    range. *)
Theorem Filter_negative_bounds (data : list value) (q : query)
  (skip limit : Z) :
  (is_nil_query q = false -> skip < 0 ->
   Filter data q skip limit = Filter data q 0 limit)
  /\ (is_nil_query q = false -> limit < 0 ->
      Filter data q skip limit = Filter data q skip 0)
  /\ (skip < 0 ->
      fst (Filter data (QVal VNil) skip limit) = []
      /\ snd (Filter data (QVal VNil) skip limit) <> None).
Proof.
  split; [|split].
  - intros Hq Hs. unfold Filter. rewrite Hq.
    apply Filter_loop_skip_nonpos. lia.
  - intros Hq Hl. unfold Filter. rewrite Hq.
    apply Filter_loop_limit_nonpos. lia.
  - intros Hs. unfold Filter. simpl is_nil_query. cbv iota.
    replace (skip =? 0) with false by (symmetry; apply Z.eqb_neq; lia).
    simpl andb. unfold slice.
    pose proof (len_nonneg data) as Hnn.
    replace (0 <=? Z.min skip (len data)) with false
      by (symmetry; apply Z.leb_gt; lia).
    simpl. split; [reflexivity | discriminate].
Qed.

End FilterMore.

Lemma Filter_at_most_limit_witness :
  len (fst (Filter ifaceEq deepEqual [VInt KInt 1; VInt KInt 2; VInt KInt 3]
              (QPred (Gt (VInt KInt 0))) 0 2)) <= 2.
Proof.
  apply Filter_at_most_limit;
    unfold GoInt.in_range, GoInt.min_int, GoInt.max_int; lia.
Defined.


Lemma Filter_page_of_all_witness :
  Filter ifaceEq deepEqual [VInt KInt 1; VInt KInt 2; VInt KInt 3]
    (QPred (Gt (VInt KInt 1))) 1 0
  = ([VInt KInt 3], None).
Proof.
  apply (Filter_page_of_all ifaceEq deepEqual
           [VInt KInt 1; VInt KInt 2; VInt KInt 3]
           (QPred (Gt (VInt KInt 1))) 1 0).
  - reflexivity.
  - unfold GoInt.in_range, GoInt.min_int, GoInt.max_int; lia.
  - repeat constructor.
Defined.

Lemma FilterC_agrees_with_Filter_witness :
  fst (FilterC ifaceEq deepEqual [VInt KInt 1; VInt KInt 2; VInt KInt 3]
         (QPred (Gt (VInt KInt 1))) 0 1)
  = fst (Filter ifaceEq deepEqual [VInt KInt 1; VInt KInt 2; VInt KInt 3]
           (QPred (Gt (VInt KInt 1))) 0 1)
  /\ snd (FilterC ifaceEq deepEqual [VInt KInt 1; VInt KInt 2; VInt KInt 3]
            (QPred (Gt (VInt KInt 1))) 0 1) = []
  /\ snd (Filter ifaceEq deepEqual [VInt KInt 1; VInt KInt 2; VInt KInt 3]
            (QPred (Gt (VInt KInt 1))) 0 1) = None.
Proof.
  apply FilterC_agrees_with_Filter.
  - reflexivity.
  - unfold GoInt.in_range, GoInt.min_int, GoInt.max_int; lia.
  - unfold GoInt.in_range, GoInt.min_int, GoInt.max_int; lia.
  - unfold GoInt.max_int, len; simpl; lia.
  - repeat constructor.
Defined.

Lemma FilterC_nil_query_witness :
  FilterC ifaceEq deepEqual [VInt KInt 1; VNil; VSlice None] (QVal VNil) 0 0
  = ([VNil; VSlice None], [])
  /\ Filter ifaceEq deepEqual [VInt KInt 1; VNil; VSlice None] (QVal VNil) 0 0
     = ([VInt KInt 1; VNil; VSlice None], None).
Proof.
  apply (FilterC_nil_query ifaceEq deepEqual
           [VInt KInt 1; VNil; VSlice None] 0 0).
  - unfold GoInt.in_range, GoInt.min_int, GoInt.max_int; lia.
  - unfold GoInt.max_int, len; simpl; lia.
Defined.

Lemma Filter_negative_bounds_witness :
  Filter ifaceEq deepEqual [VInt KInt 1; VInt KInt 2]
    (QPred (Gt (VInt KInt 0))) (-1) 0
  = ([VInt KInt 1; VInt KInt 2], None)
  /\ fst (Filter ifaceEq deepEqual [VInt KInt 1; VInt KInt 2]
            (QVal VNil) (-1) 0) = [].
Proof.
  destruct (Filter_negative_bounds ifaceEq deepEqual
              [VInt KInt 1; VInt KInt 2] (QPred (Gt (VInt KInt 0))) (-1) 0)
    as (H1 & _ & H3).
  split.
  - rewrite H1; [reflexivity | reflexivity | lia].
  - apply H3. lia.
Defined.

(** ** The field accessor, continued *)

(** X18. The accessor follows one pointer and no more, and only to a
    variable of a concrete type: a pointer to a value that is not itself a
    pointer reads like that value, so that a pointer to a map or struct
    reads like the map or struct; a pointer to a pointer, a pointer to an
    interface variable, whatever it holds, and a nil pointer read as
    nil. *)
Theorem getField_through_pointer (r x : value)
  (p : option (elemtype * value)) (name : string) :
  ((forall p', underlying r <> VPtr p') ->
   getField (VPtr (Some (ElemConcrete, r))) name = getField r name)
  /\ getField (VPtr (Some (ElemConcrete, VPtr p))) name = Ok VNil
  /\ getField (VPtr (Some (ElemIface, x))) name = Ok VNil
  /\ getField (VPtr None) name = Ok VNil.
Proof.
  split; [|split; [|split]]; try reflexivity.
  intros Hr. rewrite !getField_readField. unfold target at 1. simpl.
  unfold target.
  destruct (underlying r) eqn:E; try reflexivity.
  exfalso. eapply Hr. reflexivity.
Qed.

Lemma getField_through_pointer_witness :
  getField (VPtr (Some (ElemConcrete, VStruct [("Name", true, VString "a")])))
    "Name"
  = getField (VStruct [("Name", true, VString "a")]) "Name".
Proof.
  destruct (getField_through_pointer
              (VStruct [("Name", true, VString "a")]) VNil None "Name")
    as [H _].
  apply H. intros p'. discriminate.
Defined.

(** X19. What is stored in a map with string keys is what the accessor
    reads under that key, and the other keys read as before. *)
Theorem getField_map_store (kt : keytype) (m : list (value * value))
  (k : string) (v : value) :
  kt <> KeyOther ->
  getField (VMap kt (Some ((VString k, v) :: m))) k = Ok v
  /\ (forall k', k' <> k ->
        getField (VMap kt (Some ((VString k, v) :: m))) k'
        = getField (VMap kt (Some m)) k').
Proof.
  intros Hkt. rewrite !getField_readField. split.
  - unfold target, readField, otherKeyed, fieldOf. simpl.
    destruct kt; try congruence;
      unfold reflect.is_key; simpl; rewrite String.eqb_refl; reflexivity.
  - intros k' Hk'. rewrite !getField_readField.
    unfold target, readField, otherKeyed, fieldOf. simpl.
    assert (E : String.eqb k k' = false)
      by (apply String.eqb_neq; congruence).
    destruct kt; try congruence;
      unfold reflect.is_key at 1; simpl; rewrite E; reflexivity.
Qed.

Lemma getField_map_store_witness :
  getField (VMap KeyString (Some [(VString "a", VInt KInt 1)])) "a"
  = Ok (VInt KInt 1).
Proof.
  apply (getField_map_store KeyString [] "a" (VInt KInt 1)). discriminate.
Defined.

Section FieldQueryFacts.

Variable iface_eq : value -> value -> res bool.
Variable DeepEqual : value -> value -> bool.

Local Abbreviation eval := (eval iface_eq DeepEqual).

(** X20. For a non-empty field name, a map query with that one name is
    the sub-query on the value of the field: on nil when the record is a
    nil pointer or a pointer to an interface variable; on the value that
    the record holds or exports under the name, and on nil when it has no
    field of the name, for a record (given directly or behind a pointer to
    it) other than a map whose key type takes no string key. So the nil
    literal under a field name matches the records that lack the field.
    The evaluation panics on a struct field that is not exported and on a
    map whose key type takes no string key. *)
Theorem eval_field_query (k : string) (q : query) (item : value) :
  k <> "" ->
  (target item = None -> eval (QMap [(k, q)]) item = eval q VNil)
  /\ (forall r, target item = Some r -> otherKeyed r = false ->
        (forall v, fieldOf r k = Some (true, v) ->
           eval (QMap [(k, q)]) item = eval q v)
        /\ (fieldOf r k = None ->
            eval (QMap [(k, q)]) item = eval q VNil
            /\ eval (QMap [(k, QVal VNil)]) item = Ok true)
        /\ (forall v, fieldOf r k = Some (false, v) ->
              exists e, eval (QMap [(k, q)]) item = Panic e))
  /\ (forall r, target item = Some r -> otherKeyed r = true ->
        exists e, eval (QMap [(k, q)]) item = Panic e).
Proof.
  intros Hk.
  assert (Hstep : forall q' v,
    getField item k = Ok v -> eval (QMap [(k, q')]) item = eval q' v).
  { intros q' v Hg. simpl.
    replace (String.eqb k "") with false
      by (symmetry; apply String.eqb_neq; exact Hk).
    rewrite Hg. simpl. destruct (eval q' v) as [[|]|]; reflexivity. }
  assert (Hpanic : forall e,
    getField item k = Panic e -> eval (QMap [(k, q)]) item = Panic e).
  { intros e Hg. simpl.
    replace (String.eqb k "") with false
      by (symmetry; apply String.eqb_neq; exact Hk).
    rewrite Hg. reflexivity. }
  pose proof (getField_readField item k) as Hget. unfold readField in Hget.
  split; [|split].
  - intros Ht. rewrite Ht in Hget. apply Hstep. exact Hget.
  - intros r Ht Hr. rewrite Ht, Hr in Hget. split; [|split].
    + intros v Hv. apply Hstep. rewrite Hget, Hv. reflexivity.
    + intros Hnone. rewrite Hnone in Hget. split.
      * apply Hstep. exact Hget.
      * rewrite (Hstep (QVal VNil) VNil Hget). reflexivity.
    + intros v Hv. rewrite Hv in Hget. eexists. apply Hpanic. exact Hget.
  - intros r Ht Hr. rewrite Ht, Hr in Hget. eexists. apply Hpanic.
    exact Hget.
Qed.

End FieldQueryFacts.

Lemma eval_field_query_witness :
  eval ifaceEq deepEqual (QMap [("tags", QVal VNil)])
    (VMap KeyString (Some [(VString "id", VInt KInt 1)])) = Ok true
  /\ (exists e,
        eval ifaceEq deepEqual (QMap [("name", QVal (VString "x"))])
          (VStruct [("name", false, VString "x")]) = Panic e).
Proof.
  split.
  - destruct (eval_field_query ifaceEq deepEqual "tags" (QVal VNil)
                (VMap KeyString (Some [(VString "id", VInt KInt 1)]))
                ltac:(discriminate))
      as (_ & H & _).
    destruct (H (VMap KeyString (Some [(VString "id", VInt KInt 1)]))
                eq_refl eq_refl) as (_ & H' & _).
    apply H'. reflexivity.
  - destruct (eval_field_query ifaceEq deepEqual "name"
                (QVal (VString "x"))
                (VStruct [("name", false, VString "x")])
                ltac:(discriminate))
      as (_ & H & _).
    destruct (H (VStruct [("name", false, VString "x")]) eq_refl eq_refl)
      as (_ & _ & H').
    apply (H' (VString "x")). reflexivity.
Defined.

(** ** Membership and containment operators *)

Lemma HasPrefix_iff (s prefix : string) :
  strings.HasPrefix s prefix = true <->
  exists post, s = String.append prefix post.
Proof.
  revert s. induction prefix as [|c prefix IH]; intros s; simpl.
  - destruct s; split; [intros _; eexists; reflexivity | reflexivity
                        | intros _; eexists; reflexivity | reflexivity].
  - destruct s as [|d s]; simpl.
    + split; [discriminate | intros [post H]; discriminate].
    + rewrite andb_true_iff, Ascii.eqb_eq, IH. split.
      * intros [-> [post ->]]. exists post. reflexivity.
      * intros [post H]. injection H as -> ->. split; eauto.
Qed.

Lemma strings_Contains_iff (s substr : string) :
  strings.Contains s substr = true <->
  exists pre post, s = String.append pre (String.append substr post).
Proof.
  induction s as [|c s IH].
  - change (strings.Contains EmptyString substr)
      with (strings.HasPrefix EmptyString substr || false).
    rewrite orb_false_r, HasPrefix_iff. split.
    + intros [post H]. exists EmptyString, post. exact H.
    + intros (pre & post & H). destruct pre as [|d pre]; [|discriminate].
      exists post. exact H.
  - change (strings.Contains (String c s) substr)
      with (strings.HasPrefix (String c s) substr
            || strings.Contains s substr).
    rewrite orb_true_iff, HasPrefix_iff, IH. split.
    + intros [[post H] | (pre & post & H)].
      * exists EmptyString, post. exact H.
      * exists (String c pre), post. simpl. rewrite H. reflexivity.
    + intros (pre & post & H). destruct pre as [|d pre].
      * left. exists post. exact H.
      * right. simpl in H. injection H as -> ->. exists pre, post.
        reflexivity.
Qed.

(** X21. [Contains] holds exactly of the values of type [string] in which
    the substring occurs; on any other value, a string of a defined type
    included, it is false, and it never panics. *)
Theorem Contains_iff (substr : string) (v : value) :
  (fq.Contains substr v = Ok true <->
   exists s pre post,
     v = VString s /\ s = String.append pre (String.append substr post))
  /\ (exists b, fq.Contains substr v = Ok b)
  /\ (forall name s, fq.Contains substr (VNamed name (VString s)) = Ok false).
Proof.
  split; [|split].
  - unfold fq.Contains. split.
    + intros H. destruct v; try discriminate.
      injection H as H. apply strings_Contains_iff in H.
      destruct H as (pre & post & H). exists s, pre, post. auto.
    + intros (s & pre & post & -> & H). f_equal.
      apply strings_Contains_iff. eauto.
  - unfold fq.Contains. destruct v; eauto.
  - reflexivity.
Qed.

Section MembershipFacts.

Variable iface_eq : value -> value -> res bool.
Variable DeepEqual : value -> value -> bool.

Local Abbreviation In := (fq.In DeepEqual).
Local Abbreviation found := (fq.found DeepEqual).
Local Abbreviation ContainsAll := (fq.ContainsAll DeepEqual).
Local Abbreviation Eq := (Eq iface_eq DeepEqual).

(** X22. [In] is true exactly when the value is deeply equal to one of the
    listed values, false when it is to none, and it never panics; no value
    is in the empty list. *)
Theorem In_iff (vals : list value) (v : value) :
  (In vals v = Ok true <->
   exists val, List.In val vals /\ DeepEqual v val = true)
  /\ (In vals v = Ok false <->
      forall val, List.In val vals -> DeepEqual v val = false)
  /\ In [] v = Ok false.
Proof.
  split; [|split; [|reflexivity]].
  - induction vals as [|x vals IH]; simpl.
    + split; [discriminate | intros (val & [] & _)].
    + destruct (DeepEqual v x) eqn:E.
      * split; [intros _; exists x; auto | reflexivity].
      * rewrite IH. split.
        -- intros (val & Hin & Hv). exists val. auto.
        -- intros (val & [<- | Hin] & Hv); [congruence|]. exists val. auto.
  - induction vals as [|x vals IH]; simpl.
    + split; [intros _ val [] | reflexivity].
    + destruct (DeepEqual v x) eqn:E.
      * split; [discriminate|]. intros H.
        rewrite (H x (or_introl eq_refl)) in E. discriminate.
      * rewrite IH. split.
        -- intros H val [<- | Hin]; auto.
        -- intros H val Hin. apply H. auto.
Qed.

Lemma numbers_eqb (a b : value) (x y : Z * Z) :
  normalizes a = true -> normalizes b = true ->
  wellFormed a -> wellFormed b ->
  number a = Some x -> number b = Some y ->
  sameNumber x y ->
  exists aNum bNum,
    toNumber a = Some aNum /\ toNumber b = Some bNum
    /\ f64.eqb aNum bNum = true.
Proof.
  intros Ha Hb Hwa Hwb Hx Hy Hxy.
  destruct (toNumber_number a x Ha Hwa Hx) as (fa & Hfa & Hca).
  destruct (toNumber_number b y Hb Hwb Hy) as (fb & Hfb & Hcb).
  exists fa, fb. repeat split; try assumption.
  unfold f64.eqb.
  destruct Hca as [[Hx0 [s ->]] | [Hx0 ->]].
  - destruct Hcb as [[Hy0 [s' ->]] | [Hy0 _]]; [apply SFeqb_zero|].
    exfalso. apply Hy0. apply (sameNumber_zero x y); assumption.
  - destruct Hcb as [[Hy0 _] | [Hy0 ->]].
    + exfalso. apply Hx0.
      apply (sameNumber_zero y x); [apply sameNumber_sym|]; assumption.
    + destruct (binary_normalize_sameNumber x y Hxy Hx0) as [<- Hnan].
      apply SFeqb_refl. exact Hnan.
Qed.

(** X23. [In] does not widen numbers: when deep equality tells values of
    different kinds apart, as [reflect.DeepEqual] does, two numbers of
    different kinds that denote the same number are equal for [Eq] and yet
    the one is not [In] a list of the other. *)
Theorem In_does_not_normalize (a b : value) (x y : Z * Z) :
  (forall u w,
     reflect.kind_of_value u <> reflect.kind_of_value w ->
     DeepEqual u w = false) ->
  normalizes a = true -> normalizes b = true ->
  wellFormed a -> wellFormed b ->
  number a = Some x -> number b = Some y ->
  sameNumber x y ->
  reflect.kind_of_value a <> reflect.kind_of_value b ->
  Eq b a = Ok true /\ In [b] a = Ok false.
Proof.
  intros Hdeep Ha Hb Hwa Hwb Hx Hy Hxy Hkind. split.
  - destruct (numbers_eqb a b x y Ha Hb Hwa Hwb Hx Hy Hxy)
      as (fa & fb & Hfa & Hfb & Heq).
    unfold Eq, isEqual.
    rewrite (normalizes_not_nil a Ha), (normalizes_not_nil b Hb).
    simpl. rewrite Hfa, Hfb, Heq. reflexivity.
  - simpl. rewrite (Hdeep a b Hkind). reflexivity.
Qed.

(** X24. [ContainsAll] is true exactly on the slices and arrays in which
    every listed item has a deeply equal element; it is false on every
    other value, true on every slice or array (a nil slice too) for no
    item, and it never panics. *)
Theorem ContainsAll_iff (items : list value) (v : value) :
  (ContainsAll items v = Ok true <->
   exists xs,
     collection v = Some xs
     /\ Forall (fun item =>
                  List.Exists (fun e => DeepEqual e item = true) xs) items)
  /\ (collection v = None -> ContainsAll items v = Ok false)
  /\ (exists b, ContainsAll items v = Ok b).
Proof.
  assert (Hfound : forall xs item,
    found xs item = true <->
    List.Exists (fun e => DeepEqual e item = true) xs).
  { intros xs item. induction xs as [|e xs IH]; simpl.
    - split; [discriminate | intros H; inversion H].
    - destruct (DeepEqual e item) eqn:E.
      + split; [intros _; left; exact E | reflexivity].
      + rewrite IH. split; [intros H; right; exact H|].
        intros H. inversion H; [congruence | assumption]. }
  assert (Hloop : forall xs,
    (fix loop (items : list value) : res bool :=
       match items with
       | [] => Ok true
       | item :: rest =>
           if negb (found xs item) then Ok false else loop rest
       end) items
    = Ok (forallb (found xs) items)).
  { intros xs. induction items as [|item items IH]; [reflexivity|].
    simpl. destruct (found xs item); simpl; [exact IH | reflexivity]. }
  assert (Hcases :
    (exists xs, collection v = Some xs
                /\ ContainsAll items v = Ok (forallb (found xs) items))
    \/ (collection v = None /\ ContainsAll items v = Ok false)).
  { unfold fq.ContainsAll, collection, reflect.ValueOf, reflect.Kind_,
      reflect.kind_of_value, reflect.Elems.
    destruct v as [ | |k ?|k ?| | | | |xs|xs| | | | | |name v'];
      try (right; split; reflexivity);
      try (destruct k; right; split; reflexivity).
    - destruct xs as [xs|]; left; eexists; (split; [reflexivity|]);
        apply Hloop.
    - left. eexists. split; [reflexivity|]. apply Hloop.
    - simpl.
      destruct (underlying v') as [ | |k ?|k ?| | | | |xs|xs| | | | | | ];
        try (right; split; reflexivity);
        try (destruct k; right; split; reflexivity).
      + destruct xs as [xs|]; left; eexists; (split; [reflexivity|]);
          apply Hloop.
      + left. eexists. split; [reflexivity|]. apply Hloop. }
  split; [|split].
  - destruct Hcases as [(xs & Hc & Hr) | [Hc Hr]]; rewrite Hr.
    + split.
      * intros H. injection H as H. exists xs. split; [exact Hc|].
        apply Forall_forall. intros item Hin. apply Hfound.
        rewrite forallb_forall in H. apply H. exact Hin.
      * intros (xs' & Hc' & Hall). rewrite Hc in Hc'. injection Hc' as <-.
        f_equal. apply forallb_forall. intros item Hin. apply Hfound.
        rewrite Forall_forall in Hall. apply Hall. exact Hin.
    + split; [discriminate|]. intros (xs & Hc' & _). congruence.
  - intros Hnone. destruct Hcases as [(xs & Hc & _) | [_ Hr]];
      [congruence | exact Hr].
  - destruct Hcases as [(xs & _ & Hr) | [_ Hr]]; rewrite Hr; eauto.
Qed.

End MembershipFacts.

Lemma deepEqual_kind (u w : value) :
  reflect.kind_of_value u <> reflect.kind_of_value w ->
  deepEqual u w = false.
Proof.
  revert w.
  induction u as [ | |k n|k n| | | | |xs| |kt m| |p| | |name u IH];
    intros w H;
    destruct w as [ | |k' n'|k' n'| | | | | | | | | | | |name' w'];
    try reflexivity;
    try (exfalso; apply H; reflexivity);
    try (destruct xs; reflexivity);
    try (destruct m; reflexivity);
    try (destruct p as [[[|] ?]|]; reflexivity).
  - simpl. destruct k, k'; try reflexivity; exfalso; apply H; reflexivity.
  - simpl. destruct k, k'; try reflexivity; exfalso; apply H; reflexivity.
  - simpl. rewrite (IH w' H). apply andb_false_r.
Qed.

Lemma In_does_not_normalize_witness :
  Eq ifaceEq deepEqual (VFloat64 three) (VInt KInt 3) = Ok true
  /\ fq.In deepEqual [VFloat64 three] (VInt KInt 3) = Ok false.
Proof.
  apply (In_does_not_normalize ifaceEq deepEqual (VInt KInt 3)
           (VFloat64 three) (3, 0) (6755399441055744, -51)).
  - exact deepEqual_kind.
  - reflexivity.
  - reflexivity.
  - exact I.
  - reflexivity.
  - reflexivity.
  - reflexivity.
  - reflexivity.
  - discriminate.
Defined.

(** ** The filters of the command *)

Lemma SplitN_3 (filter : string) :
  strings.SplitN filter ":"%char 3 =
  match strings.Cut filter ":"%char with
  | Some (field, rest) =>
      match strings.Cut rest ":"%char with
      | Some (operator, value) => [field; operator; value]
      | None => [field; rest]
      end
  | None => [filter]
  end.
Proof.
  simpl. destruct (strings.Cut filter ":"%char) as [[field rest]|];
    [|reflexivity].
  destruct (strings.Cut rest ":"%char) as [[operator value]|]; reflexivity.
Qed.

Lemma entryOf_assign (m : entries) (f f' : string) (q : query) :
  entryOf (cmd.assign m f q) f' =
  if String.eqb f f' then Some q else entryOf m f'.
Proof.
  unfold entryOf. induction m as [|[k q'] m IH]; simpl.
  - destruct (String.eqb f f'); reflexivity.
  - destruct (String.eqb k f) eqn:Ekf; simpl.
    + apply String.eqb_eq in Ekf. subst k.
      destruct (String.eqb f f'); reflexivity.
    + destruct (String.eqb k f') eqn:Ekf'; simpl.
      * apply String.eqb_eq in Ekf'. subst k. rewrite String.eqb_sym, Ekf.
        reflexivity.
      * exact IH.
Qed.

Lemma keys_assign (m : entries) (f : string) (q : query) (k : string) :
  List.In k (map fst (cmd.assign m f q)) <-> k = f \/ List.In k (map fst m).
Proof.
  induction m as [|[k' q'] m IH]; simpl.
  - intuition congruence.
  - destruct (String.eqb k' f) eqn:E; simpl.
    + apply String.eqb_eq in E. subst k'. intuition congruence.
    + rewrite IH. intuition congruence.
Qed.

Lemma NoDup_assign (m : entries) (f : string) (q : query) :
  NoDup (map fst m) -> NoDup (map fst (cmd.assign m f q)).
Proof.
  induction m as [|[k' q'] m IH]; intros H; simpl.
  - constructor; [intros [] | constructor].
  - destruct (String.eqb k' f) eqn:E; simpl; [exact H|].
    inversion H as [|? ? Hnotin Hnd]; subst. constructor.
    + rewrite keys_assign. intros [-> | Hin]; [|contradiction].
      rewrite String.eqb_refl in E. discriminate.
    + apply IH. exact Hnd.
Qed.

Section ParseFiltersFacts.

Variable createPredicate : string -> string -> (value -> res bool) + string.

Local Abbreviation parseFilters := (cmd.parseFilters createPredicate).
Local Abbreviation parseFilters_loop := (cmd.parseFilters_loop createPredicate).

(** The filter is well formed and its predicate is built: the field and
    the predicate are those of [fp]. *)
Local Abbreviation builds filter fp :=
  (exists operator value,
      filterParts filter = Some (fst fp, operator, value)
      /\ createPredicate operator value = inl (snd fp)).

Lemma parseFilters_loop_step (filter : string) (rest : list string)
  (query : entries) :
  parseFilters_loop (filter :: rest) query =
  match filterParts filter with
  | Some (field, operator, value) =>
      match createPredicate operator value with
      | inl predicate =>
          parseFilters_loop rest (cmd.assign query field (QPred predicate))
      | inr err => cmd.Failed err
      end
  | None => cmd.Failed (Errorf "invalid filter format: " filter)
  end.
Proof.
  unfold filterParts. cbn [cmd.parseFilters_loop]. rewrite SplitN_3.
  destruct (strings.Cut filter ":"%char) as [[field rest']|];
    [|reflexivity].
  destruct (strings.Cut rest' ":"%char) as [[operator value]|]; reflexivity.
Qed.

Lemma parseFilters_loop_ok (filters : list string)
  (fps : list (string * (value -> res bool))) :
  Forall2 (fun filter fp => builds filter fp) filters fps ->
  forall query,
    NoDup (map fst query) ->
    exists m,
      parseFilters_loop filters query = cmd.Parsed (QMap m)
      /\ NoDup (map fst m)
      /\ forall field,
           entryOf m field =
           match lastFor field fps with
           | Some p => Some (QPred p)
           | None => entryOf query field
           end.
Proof.
  induction 1 as [|filter [f p] filters fps (op & val & Hparts & Hcp) _ IH];
    intros query Hnd.
  - exists query. repeat split; auto.
  - rewrite parseFilters_loop_step, Hparts, Hcp. simpl fst. simpl snd.
    destruct (IH (cmd.assign query f (QPred p)) (NoDup_assign _ _ _ Hnd))
      as (m & Hm & Hnd' & Hent).
    exists m. repeat split; auto.
    intros field. rewrite Hent. simpl lastFor.
    destruct (lastFor field fps); [reflexivity|].
    rewrite entryOf_assign. destruct (String.eqb f field); reflexivity.
Qed.

(** X25. When every filter is well formed and its predicate is built,
    [parseFilters] returns a map query with one entry for each field that
    a filter names, which holds the predicate of the last filter that
    names the field: of two filters on one field only the last one
    counts. *)
Theorem parseFilters_last_wins (filters : list string)
  (fps : list (string * (value -> res bool))) :
  filters <> [] ->
  Forall2 (fun filter fp => builds filter fp) filters fps ->
  exists m,
    parseFilters filters = cmd.Parsed (QMap m)
    /\ NoDup (map fst m)
    /\ forall field,
         entryOf m field =
         match lastFor field fps with
         | Some p => Some (QPred p)
         | None => None
         end.
Proof.
  intros Hne Hall.
  destruct (parseFilters_loop_ok filters fps Hall [] (NoDup_nil _))
    as (m & Hm & Hnd & Hent).
  exists m. repeat split; auto.
  destruct filters; [congruence | exact Hm].
Qed.

Lemma parseFilters_loop_app (pre : list string)
  (fps : list (string * (value -> res bool))) :
  Forall2 (fun filter fp => builds filter fp) pre fps ->
  forall rest query,
    exists query',
      parseFilters_loop (pre ++ rest) query = parseFilters_loop rest query'.
Proof.
  induction 1 as [|filter [f p] pre fps (op & val & Hparts & Hcp) _ IH];
    intros rest query.
  - exists query. reflexivity.
  - simpl app. rewrite parseFilters_loop_step, Hparts, Hcp.
    apply IH.
Qed.

(** X26. [parseFilters] fails on the first filter that is not of the form
    [field:operator:value], with the text of that filter in the error, or
    whose predicate cannot be built, with the error of the builder; the
    filters after it are not looked at. With no filter it returns the nil
    query. *)
Theorem parseFilters_first_error (pre post : list string)
  (fps : list (string * (value -> res bool))) (filter : string) :
  Forall2 (fun filter fp => builds filter fp) pre fps ->
  (filterParts filter = None ->
   parseFilters (pre ++ filter :: post)
   = cmd.Failed (Errorf "invalid filter format: " filter))
  /\ (forall field operator value err,
        filterParts filter = Some (field, operator, value) ->
        createPredicate operator value = inr err ->
        parseFilters (pre ++ filter :: post) = cmd.Failed err)
  /\ parseFilters [] = cmd.Parsed (QVal VNil).
Proof.
  intros Hpre.
  assert (Hloop : parseFilters (pre ++ filter :: post)
                  = parseFilters_loop (pre ++ filter :: post) [])
    by (destruct pre; reflexivity).
  destruct (parseFilters_loop_app pre fps Hpre (filter :: post) [])
    as (query' & Hrun).
  rewrite Hloop, Hrun, parseFilters_loop_step.
  split; [|split].
  - intros ->. reflexivity.
  - intros field operator value err -> ->. reflexivity.
  - reflexivity.
Qed.

End ParseFiltersFacts.

Lemma parseFilters_last_wins_witness :
  exists m,
    cmd.parseFilters sampleBuilder ["price:gt:10"; "price:gt:20"]
    = cmd.Parsed (QMap m)
    /\ NoDup (map fst m)
    /\ forall field,
         entryOf m field =
         match lastFor field [("price", Gt (VString "10"));
                              ("price", Gt (VString "20"))] with
         | Some p => Some (QPred p)
         | None => None
         end.
Proof.
  apply (parseFilters_last_wins sampleBuilder
           ["price:gt:10"; "price:gt:20"]
           [("price", Gt (VString "10")); ("price", Gt (VString "20"))]).
  - discriminate.
  - constructor; [exists "gt", "10"; split; reflexivity|].
    constructor; [exists "gt", "20"; split; reflexivity|].
    constructor.
Defined.

Lemma parseFilters_first_error_witness :
  cmd.parseFilters sampleBuilder (["price:gt:10"] ++ "price-gt-100" :: ["a:gt:1"])
  = cmd.Failed "invalid filter format: price-gt-100".
Proof.
  destruct (parseFilters_first_error sampleBuilder ["price:gt:10"] ["a:gt:1"]
              [("price", Gt (VString "10"))] "price-gt-100") as [H _].
  - constructor; [exists "gt", "10"; split; reflexivity | constructor].
  - apply H. reflexivity.
Defined.

(** ** Equality and order of numbers *)

Lemma SFcompare_some (x y : spec_float) :
  x <> S754_nan -> y <> S754_nan -> exists c, SFcompare x y = Some c.
Proof.
  intros Hx Hy.
  destruct x as [s|s| |s m e], y as [s'|s'| |s' m' e']; try congruence;
    simpl; eauto.
Qed.

Section EqualOrderFacts.

Variable iface_eq : value -> value -> res bool.
Variable DeepEqual : value -> value -> bool.

Local Abbreviation Eq := (Eq iface_eq DeepEqual).

(** X27. On two numbers, neither of them NaN and not both of type [int],
    [Eq] holds exactly when [Gte] and [Lte] both hold, that is, when
    [compareValues] reports 0: equality and order are decided on the same
    two [float64]. *)
Theorem Eq_iff_Gte_Lte (a b : value) (x y : spec_float) :
  toNumber a = Some x -> toNumber b = Some y ->
  x <> S754_nan -> y <> S754_nan ->
  intPair a b = false ->
  (Eq b a = Ok true <-> compareValues a b = 0)
  /\ (Eq b a = Ok true <-> Gte b a = Ok true /\ Lte b a = Ok true).
Proof.
  intros Hx Hy Hnx Hny Hint.
  assert (Hna : is_VNil a = false) by (destruct a; try reflexivity; discriminate).
  assert (Hnb : is_VNil b = false) by (destruct b; try reflexivity; discriminate).
  assert (Hc : compareValues a b =
               if f64.ltb x y then -1 else if f64.gtb x y then 1 else 0).
  { rewrite (compareValues_nonnil a b Hna Hnb).
    destruct (fastPath a b) as [r|] eqn:Hf.
    - destruct a as [ | |k n|k n| |f| | | | | | | | | | ]; try discriminate;
        destruct b as [ | |k' n'|k' n'| |f'| | | | | | | | | | ];
        try discriminate; try (destruct k; discriminate).
      + destruct k, k'; discriminate.
      + simpl in Hx, Hy. injection Hx as <-. injection Hy as <-.
        unfold fastPath in Hf. injection Hf as <-. reflexivity.
    - rewrite Hx, Hy. reflexivity. }
  assert (He : Eq b a = Ok (f64.eqb x y)).
  { unfold Eq, isEqual. rewrite Hna, Hnb. simpl. rewrite Hx, Hy.
    reflexivity. }
  destruct (SFcompare_some x y Hnx Hny) as [c Hcmp].
  assert (Hcmp' : SFcompare y x = Some (CompOpp c))
    by (rewrite (SFcompare_antisym x y), Hcmp; reflexivity).
  unfold Gte, Lte. rewrite Hc, He.
  unfold f64.eqb, f64.ltb, f64.gtb, SFeqb, SFltb. rewrite Hcmp, Hcmp'.
  destruct c; simpl; repeat split; intros; try discriminate;
    try reflexivity;
    match goal with
    | H : _ /\ _ |- _ => destruct H; discriminate
    end.
Qed.

End EqualOrderFacts.

Lemma Eq_iff_Gte_Lte_witness :
  (Eq ifaceEq deepEqual (VFloat64 three) (VInt KInt8 3) = Ok true
   <-> compareValues (VInt KInt8 3) (VFloat64 three) = 0)
  /\ (Eq ifaceEq deepEqual (VFloat64 three) (VInt KInt8 3) = Ok true
      <-> Gte (VFloat64 three) (VInt KInt8 3) = Ok true
          /\ Lte (VFloat64 three) (VInt KInt8 3) = Ok true).
Proof.
  apply (Eq_iff_Gte_Lte ifaceEq deepEqual (VInt KInt8 3) (VFloat64 three)
           three three); try reflexivity; discriminate.
Defined.

Lemma eval_QMap_order_witness :
  eval ifaceEq deepEqual
    (QMap [("a", QVal (VInt KInt 1)); ("b", QPred (Gt (VInt KInt 5)))])
    (VMap KeyString (Some [(VString "a", VInt KInt 1);
                           (VString "b", VInt KInt 2)]))
  = eval ifaceEq deepEqual
      (QMap [("b", QPred (Gt (VInt KInt 5))); ("a", QVal (VInt KInt 1))])
      (VMap KeyString (Some [(VString "a", VInt KInt 1);
                             (VString "b", VInt KInt 2)])).
Proof.
  apply eval_QMap_order.
  - apply perm_swap.
  - constructor; [eexists; reflexivity|].
    constructor; [eexists; reflexivity|]. constructor.
Defined.
